(** * Primitive Math: the evaluation engine of src/main.ts

    A shallow embedding of the classes [N] and [OP] (with its six subclasses
    [INC], [DEC], [ADD], [SUB], [MUL], [DIV]) and of the methods
    [N.evaluate], [N.op], [N.toString] and [OP.execute].

    - a [bigint] is a [Z];
    - the constructor of [N] throws on a negative value: computations live
      in a small state-and-error monad [M];
    - the private static counter [N.#evalauateStackDepth] is the state that
      the monad threads through every call;
    - the [while] loops and the mutual recursion between [evaluate], [op]
      and [execute] need not terminate: every function takes a [fuel]
      argument and answers [OutOfFuel] when it is used up. *)

From Stdlib Require Import ZArith List String Ascii Lia Bool Arith.
From Stdlib Require Import DecimalString.
Import ListNotations.

Local Open Scope Z_scope.

(** ** Data model *)

(** [class N { value: bigint; deferred: readonly OP[] }] and the closed set
    of subclasses of [OP] that the file declares.  The unary operations
    carry nothing, the binary ones capture their operand [b]. *)
Inductive N : Type :=
| mkN (value : Z) (deferred : list OP)
with OP : Type :=
| INC
| DEC
| ADD (b : N)
| SUB (b : N)
| MUL (b : N)
| DIV (b : N).

Definition value (n : N) : Z := match n with mkN v _ => v end.
Definition deferred (n : N) : list OP := match n with mkN _ ds => ds end.

(** ** Rendering *)

(** [`${this.value}`] on a bigint: its decimal digits. *)
Definition string_of_bigint (v : Z) : string :=
  NilZero.string_of_int (Z.to_int v).

(** [Array.prototype.join]. *)
Fixpoint join (sep : string) (l : list string) : string :=
  match l with
  | [] => EmptyString
  | [s] => s
  | s :: rest => (s ++ sep ++ join sep rest)%string
  end.

(** [N.toString] (main.ts, lines 74-79) and the [name] field that each
    operation computes in its constructor ([OP.toString] returns
    [this.name]). *)
Fixpoint toString (n : N) : string :=
  match n with
  | mkN v ds =>
      if (0 <? List.length ds)%nat
      then (string_of_bigint v ++ "[" ++ join ", " (map name ds) ++ "]")%string
      else string_of_bigint v
  end
with name (o : OP) : string :=
  match o with
  | INC => "INC"%string
  | DEC => "DEC"%string
  | ADD b => ("ADD(" ++ toString b ++ ")")%string
  | SUB b => ("SUB(" ++ toString b ++ ")")%string
  | MUL b => ("MUL(" ++ toString b ++ ")")%string
  | DIV b => ("DIV(" ++ toString b ++ ")")%string
  end.

(** ** The monad: depth counter, exception, fuel *)

Inductive outcome (A : Type) : Type :=
| Ret (a : A) (depth : Z)   (* normal return and the counter afterwards *)
| Thrown                    (* Error("Negative values are impossible") *)
| OutOfFuel.                (* the fuel of the model ran out *)

Arguments Ret {A} a depth.
Arguments Thrown {A}.
Arguments OutOfFuel {A}.

Definition M (A : Type) : Type := Z -> outcome A.

Definition ret {A} (a : A) : M A := fun d => Ret a d.

Definition bind {A B} (m : M A) (k : A -> M B) : M B :=
  fun d =>
    match m d with
    | Ret a d' => k a d'
    | Thrown => Thrown
    | OutOfFuel => OutOfFuel
    end.

Definition throw {A} : M A := fun _ => Thrown.
Definition out_of_fuel {A} : M A := fun _ => OutOfFuel.

Definition get_depth : M Z := fun d => Ret d d.
Definition incr_depth : M unit := fun d => Ret tt (d + 1).
Definition decr_depth : M unit := fun d => Ret tt (d - 1).

Notation "x <- m ;; k" := (bind m (fun x => k))
  (at level 61, m at next level, right associativity).
Notation "m ;; k" := (bind m (fun _ => k))
  (at level 61, right associativity).

(** [new N(value, deferred)] (main.ts, lines 18-25). *)
Definition new_N (v : Z) (ds : list OP) : M N :=
  if v <? 0 then throw else ret (mkN v ds).

Definition ZERO : N := mkN 0 [].
Definition ONE : N := mkN 1 [].

(** ** The engine *)

(** [N.evaluate] (main.ts, lines 28-51) with its loop, [N.op] (lines 53-72)
    and the six [execute] methods (lines 88-194), each loop a function of
    its own.

    [this.op(C)] and [this.op(C, other)] build the operation ([new C()] or
    [new C(other)]; an [N] object is always truthy, and the operation just
    built is never falsy) and drain the receiver with it appended: [op]
    below receives the operation already built. *)
Fixpoint evaluate (fuel : nat) (this : N) {struct fuel} : M N :=
  match fuel with
  | O => out_of_fuel
  | S fuel =>
      incr_depth ;;
      d <- get_depth ;;
      if 10 <? d then
        decr_depth ;; ret this
      else
        current <- new_N (value this) [] ;;
        evaluate_loop fuel current (deferred this)
  end

(** the [while (true)] loop of [evaluate] *)
with evaluate_loop (fuel : nat) (current : N) (ops : list OP) {struct fuel} : M N :=
  match fuel with
  | O => out_of_fuel
  | S fuel =>
      match ops with
      | [] => decr_depth ;; ret current
      | nextOp :: restOps =>
          current <- execute fuel nextOp current ;;
          if (0 <? List.length (deferred current))%nat then
            decr_depth ;;
            new_N (value current) (deferred current ++ restOps)%list
          else evaluate_loop fuel current restOps
      end
  end

with op (fuel : nat) (this : N) (operation : OP) {struct fuel} : M N :=
  match fuel with
  | O => out_of_fuel
  | S fuel =>
      n <- new_N (value this) (deferred this ++ [operation])%list ;;
      evaluate fuel n
  end

with execute (fuel : nat) (o : OP) (n : N) {struct fuel} : M N :=
  match fuel with
  | O => out_of_fuel
  | S fuel =>
      match o with
      | INC => new_N (value n + 1) (deferred n)
      | DEC =>
          if value n =? 0 then op fuel n DEC
          else new_N (value n - 1) (deferred n)
      | ADD b => ADD_loop fuel n b
      | SUB b => SUB_loop fuel n b
      | MUL b => MUL_loop fuel n n b
      | DIV b => DIV_loop fuel b ZERO n
      end
  end

(** [ADD.execute]: the loop and what follows it *)
with ADD_loop (fuel : nat) (a b : N) {struct fuel} : M N :=
  match fuel with
  | O => out_of_fuel
  | S fuel =>
      if 0 <? value b then
        a <- op fuel a INC ;;
        b <- op fuel b DEC ;;
        ADD_loop fuel a b
      else if (0 <? List.length (deferred b))%nat then op fuel a (ADD b)
      else ret a
  end

(** [SUB.execute] *)
with SUB_loop (fuel : nat) (a b : N) {struct fuel} : M N :=
  match fuel with
  | O => out_of_fuel
  | S fuel =>
      if 0 <? value b then
        a <- op fuel a DEC ;;
        b <- op fuel b DEC ;;
        SUB_loop fuel a b
      else if (0 <? List.length (deferred b))%nat then op fuel a (ADD b)
      else ret a
  end

(** [MUL.execute]: [n] is the receiver as it came in, [a] the running
    total, [counter] starts as the captured operand *)
with MUL_loop (fuel : nat) (n a counter : N) {struct fuel} : M N :=
  match fuel with
  | O => out_of_fuel
  | S fuel =>
      if 1 <? value counter then
        a <- op fuel a (ADD n) ;;
        counter <- op fuel counter DEC ;;
        MUL_loop fuel n a counter
      else ret a
  end

(** [DIV.execute]: [b] is the captured divisor *)
with DIV_loop (fuel : nat) (b quotient remainder : N) {struct fuel} : M N :=
  match fuel with
  | O => out_of_fuel
  | S fuel =>
      if (value b <=? value remainder) && (0 <? value b) then
        remainder <- op fuel remainder (SUB b) ;;
        quotient <- op fuel quotient INC ;;
        DIV_loop fuel b quotient remainder
      else if value remainder =? 0 then ret quotient
      else
        r <- op fuel remainder (DIV b) ;;
        op fuel quotient (ADD r)
  end.

(** A public call starts with the counter at [0]: every call that returns
    leaves the counter as it found it ([engine_is_safe] below). *)
Definition run {A} (m : M A) : outcome A := m 0.

(** [new N(x)], the [value_from(x)] of the specification. *)
Definition value_from (x : Z) : N := mkN x [].

(** Sequencing on outcomes, as [bind] does once the counter is given. *)
Definition and_then {A B} (o : outcome A) (k : A -> Z -> outcome B) : outcome B :=
  match o with
  | Ret a d => k a d
  | Thrown => Thrown
  | OutOfFuel => OutOfFuel
  end.

(** ** Invariants and the monotonicity of fuel *)

(** A value is well formed when its magnitude is not negative and so are
    the magnitudes of all the operands captured in its deferred queue, at
    any depth. *)
Inductive wfN : N -> Prop :=
| wf_mkN v ds : 0 <= v -> Forall wfOP ds -> wfN (mkN v ds)
with wfOP : OP -> Prop :=
| wf_INC : wfOP INC
| wf_DEC : wfOP DEC
| wf_ADD b : wfN b -> wfOP (ADD b)
| wf_SUB b : wfN b -> wfOP (SUB b)
| wf_MUL b : wfN b -> wfOP (MUL b)
| wf_DIV b : wfN b -> wfOP (DIV b).

(** What a call may do when it is given well-formed arguments: run out of
    fuel, or return a well-formed value and leave the counter at [d].  It
    may not throw. *)
Definition safe (d : Z) (o : outcome N) : Prop :=
  match o with
  | Ret r d' => wfN r /\ d' = d
  | Thrown => False
  | OutOfFuel => True
  end.

(** [safe], for all the functions of the engine at fuel [f]. *)
Record engine_safe (f : nat) : Prop := {
  safe_evaluate : forall this d, wfN this -> safe d (evaluate f this d);
  safe_evaluate_loop : forall c ops d,
      wfN c -> Forall wfOP ops -> safe (d - 1) (evaluate_loop f c ops d);
  safe_op : forall this o d, wfN this -> wfOP o -> safe d (op f this o d);
  safe_execute : forall o n d, wfOP o -> wfN n -> safe d (execute f o n d);
  safe_ADD_loop : forall a b d, wfN a -> wfN b -> safe d (ADD_loop f a b d);
  safe_SUB_loop : forall a b d, wfN a -> wfN b -> safe d (SUB_loop f a b d);
  safe_MUL_loop : forall n a c d,
      wfN n -> wfN a -> wfN c -> safe d (MUL_loop f n a c d);
  safe_DIV_loop : forall b q r d,
      wfN b -> wfN q -> wfN r -> safe d (DIV_loop f b q r d)
}.

(** [o2] is what [o1] becomes with more fuel: either [o1] had run out, or
    the two agree. *)
Definition refines {A} (o1 o2 : outcome A) : Prop :=
  o1 = OutOfFuel \/ o1 = o2.

(** One more unit of fuel refines every function of the engine. *)
Record engine_mono (f : nat) : Prop := {
  mono_evaluate : forall this d,
      refines (evaluate f this d) (evaluate (S f) this d);
  mono_evaluate_loop : forall c ops d,
      refines (evaluate_loop f c ops d) (evaluate_loop (S f) c ops d);
  mono_op : forall this o d, refines (op f this o d) (op (S f) this o d);
  mono_execute : forall o n d,
      refines (execute f o n d) (execute (S f) o n d);
  mono_ADD_loop : forall a b d,
      refines (ADD_loop f a b d) (ADD_loop (S f) a b d);
  mono_SUB_loop : forall a b d,
      refines (SUB_loop f a b d) (SUB_loop (S f) a b d);
  mono_MUL_loop : forall n a c d,
      refines (MUL_loop f n a c d) (MUL_loop (S f) n a c d);
  mono_DIV_loop : forall b q r d,
      refines (DIV_loop f b q r d) (DIV_loop (S f) b q r d)
}.

(** ** Calls that return, operations that defer themselves *)

(** [returns c d r]: started with the counter at [d], the call [c] returns
    [r] and leaves the counter at [d], for every amount of fuel from some
    point on. *)
Definition returns (c : nat -> M N) (d : Z) (r : N) : Prop :=
  exists f0, forall f, (f0 <= f)%nat -> c f d = Ret r d.

(** [self_deferring o v]: applied to the plain value [v], at any depth,
    [o] comes back as [v] with [o] itself deferred. *)
Definition self_deferring (o : OP) (v : Z) : Prop :=
  forall d, returns (fun f => execute f o (mkN v [])) d (mkN v [o]).

(** ** Closed forms of the results on plain operands *)

(** What [SUB] leaves of the receiver: the magnitude stops at zero and the
    decrements that found nothing to take are queued. *)
Definition owing (k : nat) : list OP := repeat DEC k.

(** [new N(a).op(SUB, new N(b))]. *)
Definition SUB_result (a b : Z) : N :=
  if b <=? a then mkN (a - b) [] else mkN 0 (owing (Z.to_nat (b - a))).

(** [new N(a).op(MUL, new N(b))]: the loop runs [b - 1] times, and not at
    all when [b] is 0 or 1. *)
Definition MUL_result (a b : Z) : N :=
  if 1 <? b then mkN (a * b) [] else mkN a [].

(** What [DIV.execute] builds for a remainder [r] that the divisor [b] no
    longer fits into.  Each level of the recursion
    [remainder.op(DIV, this.b)] wraps the result of the level below in
    [0[ADD(...)]]; the innermost level is the one where the depth bound
    hands [r[DIV(b)]] back untouched. *)
Fixpoint remainder_chain (k : nat) (r : Z) (b : N) : N :=
  match k with
  | O => mkN 0 [ADD (mkN r [DIV b])]
  | S k => mkN 0 [ADD (remainder_chain k r b)]
  end.

(** The result of [DIV.execute] at depth [d] once the loop has left the
    quotient [q] and the remainder [r]. *)
Definition DIV_result (d q r : Z) (b : N) : N :=
  if r =? 0 then mkN q []
  else mkN q [ADD (remainder_chain (Z.to_nat (9 - d)) r b)].

(** ** Settled values, calls that do not return, the public API *)

(** A value is settled when its magnitude is not negative and the first
    operation of its deferred queue, if there is one, defers itself at that
    magnitude: nothing behind it will ever be tried. *)
Definition settled (n : N) : Prop :=
  0 <= value n /\
  forall h t, deferred n = h :: t -> self_deferring h (value n).

(** [never_returns c d]: no amount of fuel makes the call [c] return. *)
Definition never_returns (c : nat -> M N) (d : Z) : Prop :=
  forall f r d', c f d <> Ret r d'.

(** The captured operand [b] of a binary operation. *)
Definition operand (o : OP) : option N :=
  match o with
  | INC | DEC => None
  | ADD b | SUB b | MUL b | DIV b => Some b
  end.

(** The values a caller can obtain: [new N(x)] with [x >= 0] (among them
    [ZERO()] and [ONE()]), and whatever [op] returns on such values, the
    operand of a binary operation being such a value too. *)
Inductive reachable : N -> Prop :=
| reach_value_from x : 0 <= x -> reachable (value_from x)
| reach_op this o fuel r d :
    reachable this ->
    (forall b, operand o = Some b -> reachable b) ->
    run (op fuel this o) = Ret r d ->
    reachable r.

(** ** Repeated draining and the division invariant of the specification *)

(** [current = current.evaluate()], [k] times over. *)
Fixpoint evaluate_times (fuel : nat) (k : nat) (n : N) : M N :=
  match k with
  | O => ret n
  | S k => n' <- evaluate fuel n ;; evaluate_times fuel k n'
  end.

(** The reference function of the specification: subtract [b] from [m] for
    as long as it fits, with no bound on the depth. *)
Fixpoint subtract_repeatedly (n : nat) (m b : Z) : Z :=
  match n with
  | O => m
  | S n => if (b <=? m) && (0 <? b) then subtract_repeatedly n (m - b) b else m
  end.

(** The captured remainder value, resolved by the reference function. *)
Definition oracle_resolve (c : N) (b : Z) : Z :=
  subtract_repeatedly (Z.to_nat (value c)) (value c) b.

(** The invariant as the specification words it, for the result of
    [value_from(a).op(DIV, value_from(b))]. *)
Definition division_invariant (a b : Z) (result : N) : Prop :=
  (deferred result = [] -> value result * b = a) /\
  (deferred result <> [] ->
   value result * b <= a /\
   exists c, deferred result = [ADD c] /\
             oracle_resolve c b = a - value result * b).

(** The value of [new N(5n).op(DIV, new N(3n))]. *)
Definition five_thirds : N := DIV_result 1 1 2 (value_from 3).

(** ** One step of each function *)

(** The equations below unfold one unit of fuel; the proofs that follow
    rewrite with them instead of unfolding the mutual fixpoint. *)

Lemma new_N_eq v ds d :
  new_N v ds d = if v <? 0 then Thrown else Ret (mkN v ds) d.
Proof. unfold new_N. destruct (v <? 0); reflexivity. Qed.

Lemma new_N_ok v ds d : 0 <= v -> new_N v ds d = Ret (mkN v ds) d.
Proof.
  intros Hv. rewrite new_N_eq.
  destruct (Z.ltb_spec v 0); [lia | reflexivity].
Qed.

Lemma evaluate_S f this d :
  evaluate (S f) this d =
  if 10 <? d + 1 then Ret this d
  else and_then (new_N (value this) [] (d + 1))
         (fun current d' => evaluate_loop f current (deferred this) d').
Proof.
  cbn [evaluate]. unfold bind, incr_depth, get_depth, decr_depth, ret.
  destruct (10 <? d + 1); [ | reflexivity ].
  f_equal. lia.
Qed.

Lemma evaluate_loop_nil f current d :
  evaluate_loop (S f) current [] d = Ret current (d - 1).
Proof. reflexivity. Qed.

Lemma evaluate_loop_cons f current nextOp restOps d :
  evaluate_loop (S f) current (nextOp :: restOps) d =
  and_then (execute f nextOp current d)
    (fun current' d' =>
       if (0 <? List.length (deferred current'))%nat
       then new_N (value current') (deferred current' ++ restOps) (d' - 1)
       else evaluate_loop f current' restOps d').
Proof.
  cbn [evaluate_loop]. unfold bind, and_then.
  destruct (execute f nextOp current d) as [c' d'| |]; try reflexivity.
  destruct (0 <? List.length (deferred c'))%nat; reflexivity.
Qed.

Lemma op_S f this operation d :
  op (S f) this operation d =
  and_then (new_N (value this) (deferred this ++ [operation]) d)
    (fun n d' => evaluate f n d').
Proof. reflexivity. Qed.

Lemma execute_S f o n d :
  execute (S f) o n d =
  match o with
  | INC => new_N (value n + 1) (deferred n) d
  | DEC =>
      if value n =? 0 then op f n DEC d
      else new_N (value n - 1) (deferred n) d
  | ADD b => ADD_loop f n b d
  | SUB b => SUB_loop f n b d
  | MUL b => MUL_loop f n n b d
  | DIV b => DIV_loop f b ZERO n d
  end.
Proof.
  cbn [execute]. destruct o; try reflexivity.
  destruct (value n =? 0); reflexivity.
Qed.

Lemma ADD_loop_S f a b d :
  ADD_loop (S f) a b d =
  if 0 <? value b then
    and_then (op f a INC d) (fun a' d1 =>
    and_then (op f b DEC d1) (fun b' d2 => ADD_loop f a' b' d2))
  else if (0 <? List.length (deferred b))%nat then op f a (ADD b) d
  else Ret a d.
Proof.
  cbn [ADD_loop].
  destruct (0 <? value b); [reflexivity|].
  destruct (0 <? List.length (deferred b))%nat; reflexivity.
Qed.

Lemma SUB_loop_S f a b d :
  SUB_loop (S f) a b d =
  if 0 <? value b then
    and_then (op f a DEC d) (fun a' d1 =>
    and_then (op f b DEC d1) (fun b' d2 => SUB_loop f a' b' d2))
  else if (0 <? List.length (deferred b))%nat then op f a (ADD b) d
  else Ret a d.
Proof.
  cbn [SUB_loop].
  destruct (0 <? value b); [reflexivity|].
  destruct (0 <? List.length (deferred b))%nat; reflexivity.
Qed.

Lemma MUL_loop_S f n a counter d :
  MUL_loop (S f) n a counter d =
  if 1 <? value counter then
    and_then (op f a (ADD n) d) (fun a' d1 =>
    and_then (op f counter DEC d1) (fun c' d2 => MUL_loop f n a' c' d2))
  else Ret a d.
Proof.
  cbn [MUL_loop]. destruct (1 <? value counter); reflexivity.
Qed.

Lemma DIV_loop_S f b quotient remainder d :
  DIV_loop (S f) b quotient remainder d =
  if (value b <=? value remainder) && (0 <? value b) then
    and_then (op f remainder (SUB b) d) (fun r' d1 =>
    and_then (op f quotient INC d1) (fun q' d2 => DIV_loop f b q' r' d2))
  else if value remainder =? 0 then Ret quotient d
  else
    and_then (op f remainder (DIV b) d) (fun r d1 => op f quotient (ADD r) d1).
Proof.
  cbn [DIV_loop].
  destruct ((value b <=? value remainder) && (0 <? value b)); [reflexivity|].
  destruct (value remainder =? 0); reflexivity.
Qed.

Lemma fuel_O :
  (forall this d, evaluate 0 this d = OutOfFuel) /\
  (forall c ops d, evaluate_loop 0 c ops d = OutOfFuel) /\
  (forall this o d, op 0 this o d = OutOfFuel) /\
  (forall o n d, execute 0 o n d = OutOfFuel) /\
  (forall a b d, ADD_loop 0 a b d = OutOfFuel) /\
  (forall a b d, SUB_loop 0 a b d = OutOfFuel) /\
  (forall n a c d, MUL_loop 0 n a c d = OutOfFuel) /\
  (forall b q r d, DIV_loop 0 b q r d = OutOfFuel).
Proof. repeat split. Qed.

Global Opaque evaluate evaluate_loop op execute ADD_loop SUB_loop MUL_loop DIV_loop.

(** ** Non-negative magnitudes *)

Lemma wfN_value n : wfN n -> 0 <= value n.
Proof. intros [v ds Hv _]. exact Hv. Qed.

Lemma wfN_deferred n : wfN n -> Forall wfOP (deferred n).
Proof. intros [v ds _ Hds]. exact Hds. Qed.

Lemma wfN_plain v : 0 <= v -> wfN (mkN v []).
Proof. intros Hv. constructor; [exact Hv | constructor]. Qed.

Lemma wfN_ZERO : wfN ZERO.
Proof. apply wfN_plain. lia. Qed.

Lemma wfN_rebuild v n ds :
  0 <= v -> wfN n -> Forall wfOP ds -> wfN (mkN v (deferred n ++ ds)).
Proof.
  intros Hv Hn Hds. constructor; [exact Hv|].
  apply Forall_app. split; [apply wfN_deferred; exact Hn | exact Hds].
Qed.

Lemma safe_and_then d1 d2 o k :
  safe d1 o ->
  (forall r, wfN r -> safe d2 (k r d1)) ->
  safe d2 (and_then o k).
Proof.
  destruct o as [r d'| |]; cbn; intros Ho Hk; try tauto.
  destruct Ho as [Hr ->]. apply Hk. exact Hr.
Qed.

Lemma safe_new_N v ds d : 0 <= v -> Forall wfOP ds -> safe d (new_N v ds d).
Proof.
  intros Hv Hds. rewrite new_N_ok by exact Hv.
  split; [constructor; assumption | reflexivity].
Qed.

Lemma engine_safe_O : engine_safe 0.
Proof.
  destruct fuel_O as (E1 & E2 & E3 & E4 & E5 & E6 & E7 & E8).
  constructor; intros;
    rewrite ?E1, ?E2, ?E3, ?E4, ?E5, ?E6, ?E7, ?E8; exact I.
Qed.

Lemma engine_safe_S f : engine_safe f -> engine_safe (S f).
Proof.
  intros IH. constructor.
  - (* evaluate *)
    intros this d Hthis. rewrite evaluate_S.
    destruct (10 <? d + 1).
    + split; [exact Hthis | reflexivity].
    + rewrite new_N_ok by (apply wfN_value; exact Hthis). cbn.
      replace d with (d + 1 - 1) at 1 by lia.
      apply (safe_evaluate_loop f IH).
      * apply wfN_plain, wfN_value, Hthis.
      * apply wfN_deferred, Hthis.
  - (* evaluate_loop *)
    intros c ops d Hc Hops. destruct ops as [|nextOp restOps].
    + rewrite evaluate_loop_nil. split; [exact Hc | reflexivity].
    + rewrite evaluate_loop_cons. inversion Hops as [|? ? Hnext Hrest]; subst.
      apply safe_and_then with (d1 := d).
      * apply (safe_execute f IH); assumption.
      * intros r Hr. destruct (0 <? List.length (deferred r))%nat.
        -- apply safe_new_N; [apply wfN_value, Hr|].
           apply Forall_app. split; [apply wfN_deferred, Hr | exact Hrest].
        -- apply (safe_evaluate_loop f IH); assumption.
  - (* op *)
    intros this o d Hthis Ho. rewrite op_S.
    rewrite new_N_ok by (apply wfN_value; exact Hthis). cbn.
    apply (safe_evaluate f IH).
    apply wfN_rebuild; [apply wfN_value, Hthis | exact Hthis | ].
    constructor; [exact Ho | constructor].
  - (* execute *)
    intros o n d Ho Hn. rewrite execute_S.
    pose proof (wfN_value n Hn) as Hv.
    destruct o.
    + apply safe_new_N; [lia | apply wfN_deferred, Hn].
    + destruct (Z.eqb_spec (value n) 0).
      * apply (safe_op f IH); [exact Hn | constructor].
      * apply safe_new_N; [lia | apply wfN_deferred, Hn].
    + inversion Ho; subst. apply (safe_ADD_loop f IH); assumption.
    + inversion Ho; subst. apply (safe_SUB_loop f IH); assumption.
    + inversion Ho; subst. apply (safe_MUL_loop f IH); assumption.
    + inversion Ho; subst.
      apply (safe_DIV_loop f IH); [assumption | apply wfN_ZERO | assumption].
  - (* ADD_loop *)
    intros a b d Ha Hb. rewrite ADD_loop_S.
    destruct (0 <? value b).
    + apply safe_and_then with (d1 := d).
      { apply (safe_op f IH); [exact Ha | constructor]. }
      intros a' Ha'. apply safe_and_then with (d1 := d).
      { apply (safe_op f IH); [exact Hb | constructor]. }
      intros b' Hb'. apply (safe_ADD_loop f IH); assumption.
    + destruct (0 <? List.length (deferred b))%nat.
      * apply (safe_op f IH); [exact Ha | constructor; exact Hb].
      * split; [exact Ha | reflexivity].
  - (* SUB_loop *)
    intros a b d Ha Hb. rewrite SUB_loop_S.
    destruct (0 <? value b).
    + apply safe_and_then with (d1 := d).
      { apply (safe_op f IH); [exact Ha | constructor]. }
      intros a' Ha'. apply safe_and_then with (d1 := d).
      { apply (safe_op f IH); [exact Hb | constructor]. }
      intros b' Hb'. apply (safe_SUB_loop f IH); assumption.
    + destruct (0 <? List.length (deferred b))%nat.
      * apply (safe_op f IH); [exact Ha | constructor; exact Hb].
      * split; [exact Ha | reflexivity].
  - (* MUL_loop *)
    intros n a c d Hn Ha Hc. rewrite MUL_loop_S.
    destruct (1 <? value c).
    + apply safe_and_then with (d1 := d).
      { apply (safe_op f IH); [exact Ha | constructor; exact Hn]. }
      intros a' Ha'. apply safe_and_then with (d1 := d).
      { apply (safe_op f IH); [exact Hc | constructor]. }
      intros c' Hc'. apply (safe_MUL_loop f IH); assumption.
    + split; [exact Ha | reflexivity].
  - (* DIV_loop *)
    intros b q r d Hb Hq Hr. rewrite DIV_loop_S.
    destruct ((value b <=? value r) && (0 <? value b)).
    + apply safe_and_then with (d1 := d).
      { apply (safe_op f IH); [exact Hr | constructor; exact Hb]. }
      intros r' Hr'. apply safe_and_then with (d1 := d).
      { apply (safe_op f IH); [exact Hq | constructor]. }
      intros q' Hq'. apply (safe_DIV_loop f IH); assumption.
    + destruct (value r =? 0).
      * split; [exact Hq | reflexivity].
      * apply safe_and_then with (d1 := d).
        { apply (safe_op f IH); [exact Hr | constructor; exact Hb]. }
        intros r' Hr'.
        apply (safe_op f IH); [exact Hq | constructor; exact Hr'].
Qed.

Lemma engine_is_safe f : engine_safe f.
Proof. induction f; [apply engine_safe_O | apply engine_safe_S; assumption]. Qed.

(** ** More fuel changes nothing *)

Lemma refines_refl {A} (o : outcome A) : refines o o.
Proof. right. reflexivity. Qed.

Lemma refines_trans {A} (o1 o2 o3 : outcome A) :
  refines o1 o2 -> refines o2 o3 -> refines o1 o3.
Proof.
  intros [H1|H1] [H2|H2]; subst; try (left; reflexivity); try (right; reflexivity).
Qed.

Lemma refines_and_then {A B} (o1 o2 : outcome A) (k1 k2 : A -> Z -> outcome B) :
  refines o1 o2 ->
  (forall a d, refines (k1 a d) (k2 a d)) ->
  refines (and_then o1 k1) (and_then o2 k2).
Proof.
  intros [H|H] Hk; subst.
  - left. reflexivity.
  - destruct o2; cbn; [apply Hk | right; reflexivity | left; reflexivity].
Qed.

Lemma refines_Ret {A} (o1 o2 : outcome A) r d :
  refines o1 o2 -> o1 = Ret r d -> o2 = Ret r d.
Proof. intros [H|H] E; congruence. Qed.

Lemma engine_mono_O : engine_mono 0.
Proof.
  destruct fuel_O as (E1 & E2 & E3 & E4 & E5 & E6 & E7 & E8).
  constructor; intros; left; auto.
Qed.

Ltac mono_step IH :=
  repeat first
    [ apply refines_refl
    | apply (mono_evaluate _ IH)
    | apply (mono_evaluate_loop _ IH)
    | apply (mono_op _ IH)
    | apply (mono_execute _ IH)
    | apply (mono_ADD_loop _ IH)
    | apply (mono_SUB_loop _ IH)
    | apply (mono_MUL_loop _ IH)
    | apply (mono_DIV_loop _ IH)
    | apply refines_and_then; [ | intros ? ? ]
    | match goal with
      | |- refines (if ?c then _ else _) (if ?c then _ else _) => destruct c
      | |- refines (match ?o with INC => _ | _ => _ end) _ => destruct o
      end ].

Lemma engine_mono_S f : engine_mono f -> engine_mono (S f).
Proof.
  intros IH. constructor; intros.
  - rewrite !evaluate_S. mono_step IH.
  - destruct ops as [|nextOp restOps].
    + rewrite !evaluate_loop_nil. mono_step IH.
    + rewrite !evaluate_loop_cons. mono_step IH.
  - rewrite !op_S. mono_step IH.
  - rewrite !execute_S. mono_step IH.
  - rewrite !ADD_loop_S. mono_step IH.
  - rewrite !SUB_loop_S. mono_step IH.
  - rewrite !MUL_loop_S. mono_step IH.
  - rewrite !DIV_loop_S. mono_step IH.
Qed.

Lemma engine_is_mono f : engine_mono f.
Proof. induction f; [apply engine_mono_O | apply engine_mono_S; assumption]. Qed.

Lemma op_fuel_le f f' this o d :
  (f <= f')%nat -> refines (op f this o d) (op f' this o d).
Proof.
  induction 1 as [|f' _ IH]; [apply refines_refl|].
  eapply refines_trans; [exact IH | apply (mono_op _ (engine_is_mono f'))].
Qed.

Lemma evaluate_fuel_le f f' this d :
  (f <= f')%nat -> refines (evaluate f this d) (evaluate f' this d).
Proof.
  induction 1 as [|f' _ IH]; [apply refines_refl|].
  eapply refines_trans; [exact IH | apply (mono_evaluate _ (engine_is_mono f'))].
Qed.

(** ** Calls that return *)

Ltac spend f := destruct f as [|f]; [lia|].

Lemma N_eta r : mkN (value r) (deferred r) = r.
Proof. destruct r; reflexivity. Qed.

Lemma nonempty_length (ds : list OP) :
  ds <> [] -> (0 <? List.length ds)%nat = true.
Proof. destruct ds; [congruence | reflexivity]. Qed.

Lemma empty_length (ds : list OP) :
  ds = [] -> (0 <? List.length ds)%nat = false.
Proof. intros ->. reflexivity. Qed.

Lemma returns_unique c d r f r' d' :
  (forall g g', (g <= g')%nat -> refines (c g d) (c g' d)) ->
  returns c d r -> c f d = Ret r' d' -> r' = r /\ d' = d.
Proof.
  intros Hmono [f0 H0] Hf.
  pose proof (refines_Ret _ _ _ _ (Hmono f (Nat.max f f0) (Nat.le_max_l _ _)) Hf) as H1.
  rewrite H0 in H1 by apply Nat.le_max_r.
  split; congruence.
Qed.

Lemma op_returns_unique this o d r f r' d' :
  returns (fun f => op f this o) d r -> op f this o d = Ret r' d' ->
  r' = r /\ d' = d.
Proof.
  apply (returns_unique (fun f => op f this o)).
  intros g g' Hg. apply op_fuel_le. exact Hg.
Qed.

Lemma evaluate_returns_unique this d r f r' d' :
  returns (fun f => evaluate f this) d r -> evaluate f this d = Ret r' d' ->
  r' = r /\ d' = d.
Proof.
  apply (returns_unique (fun f => evaluate f this)).
  intros g g' Hg. apply evaluate_fuel_le. exact Hg.
Qed.

(** Past the depth bound [evaluate] hands the receiver back untouched, and
    [op] hands it back with the operation appended and not applied. *)
Lemma evaluate_past_bound f this d :
  10 <= d -> evaluate (S f) this d = Ret this d.
Proof.
  intros Hd. rewrite evaluate_S.
  destruct (Z.ltb_spec 10 (d + 1)); [reflexivity | lia].
Qed.

Lemma op_past_bound f this o d :
  10 <= d -> 0 <= value this ->
  op (S (S f)) this o d = Ret (mkN (value this) (deferred this ++ [o])) d.
Proof.
  intros Hd Hv. rewrite op_S, new_N_ok by exact Hv. cbn [and_then].
  apply evaluate_past_bound. exact Hd.
Qed.

(** Within the bound, [evaluate] on a receiver whose first deferred
    operation [h] comes back from [execute] with deferred work stops there. *)
Lemma evaluate_head_defers v h t d c :
  0 <= v -> d < 10 -> 0 <= value c -> deferred c <> [] ->
  returns (fun f => execute f h (mkN v [])) (d + 1) c ->
  returns (fun f => evaluate f (mkN v (h :: t))) d
          (mkN (value c) (deferred c ++ t)).
Proof.
  intros Hv Hd Hc Hds [f0 H0]. exists (S (S f0)). intros f Hf.
  spend f. rewrite evaluate_S.
  destruct (Z.ltb_spec 10 (d + 1)); [lia|].
  cbn [value deferred]. rewrite new_N_ok by exact Hv. cbn [and_then].
  spend f. rewrite evaluate_loop_cons, H0 by lia. cbn [and_then].
  rewrite nonempty_length by exact Hds.
  rewrite new_N_ok by exact Hc. f_equal. lia.
Qed.

(** Within the bound, [op] on a receiver without deferred work is
    [execute] one level down. *)
Lemma op_plain v o d r :
  0 <= v -> d < 10 -> 0 <= value r ->
  returns (fun f => execute f o (mkN v [])) (d + 1) r ->
  returns (fun f => op f (mkN v []) o) d r.
Proof.
  intros Hv Hd Hr [f0 H0]. exists (S (S (S (S f0)))). intros f Hf.
  spend f. rewrite op_S. cbn [value deferred].
  rewrite new_N_ok by exact Hv. cbn [and_then app].
  spend f. rewrite evaluate_S.
  destruct (Z.ltb_spec 10 (d + 1)); [lia|].
  cbn [value deferred]. rewrite new_N_ok by exact Hv. cbn [and_then].
  spend f. rewrite evaluate_loop_cons, H0 by lia. cbn [and_then].
  destruct (0 <? List.length (deferred r))%nat.
  - rewrite new_N_ok by exact Hr. rewrite app_nil_r, N_eta. f_equal. lia.
  - spend f. rewrite evaluate_loop_nil. f_equal. lia.
Qed.

(** ** Operations that defer themselves *)

Lemma self_deferring_intro o v k :
  0 <= v ->
  (forall f d, execute (k + f) o (mkN v []) d = op f (mkN v []) o d) ->
  self_deferring o v.
Proof.
  intros Hv Hexec.
  assert (Hbound : forall n d, 10 - d <= Z.of_nat n ->
            returns (fun f => execute f o (mkN v [])) d (mkN v [o])).
  { induction n as [|n IH]; intros d Hn.
    - exists (k + 2)%nat. intros f Hf.
      replace f with (k + (f - k))%nat by lia.
      rewrite Hexec.
      replace (f - k)%nat with (S (S (f - k - 2))) by lia.
      rewrite op_past_bound by (cbn; lia). reflexivity.
    - destruct (Z_le_gt_dec 10 d) as [Hd|Hd].
      + apply (IH d). lia.
      + destruct (IH (d + 1)) as [f1 H1]; [lia|].
        exists (k + S (S (S f1)))%nat. intros f Hf.
        replace f with (k + (f - k))%nat by lia.
        rewrite Hexec.
        remember (f - k)%nat as g eqn:Hg.
        spend g. rewrite op_S. cbn [value deferred].
        rewrite new_N_ok by exact Hv. cbn [and_then app].
        spend g. rewrite evaluate_S.
        destruct (Z.ltb_spec 10 (d + 1)); [lia|].
        cbn [value deferred]. rewrite new_N_ok by exact Hv. cbn [and_then].
        spend g. rewrite evaluate_loop_cons, H1 by lia. cbn [and_then].
        cbn [deferred value List.length Nat.ltb Nat.leb app].
        rewrite new_N_ok by exact Hv. f_equal. lia. }
  intros d. apply (Hbound (Z.to_nat (10 - d))). lia.
Qed.

(** [DEC] at zero: the sole primitive source of deferred work. *)
Lemma DEC_self_deferring : self_deferring DEC 0.
Proof.
  apply (self_deferring_intro DEC 0 1); [lia|].
  intros f d. cbn [Nat.add]. rewrite execute_S. reflexivity.
Qed.

(** [ADD b] when [b] has magnitude zero and deferred work of its own: the
    replay [a.op(ADD, b)] re-enters [ADD.execute] until the depth bound
    cuts it short. *)
Lemma ADD_self_deferring b v :
  0 <= v -> value b = 0 -> deferred b <> [] -> self_deferring (ADD b) v.
Proof.
  intros Hv Hb Hds.
  apply (self_deferring_intro (ADD b) v 2); [exact Hv|].
  intros f d. cbn [Nat.add]. rewrite execute_S, ADD_loop_S, Hb.
  cbn [Z.ltb Z.compare]. rewrite nonempty_length by exact Hds. reflexivity.
Qed.

(** A receiver whose first deferred operation defers itself is a fixed
    point of [evaluate], and [op] only queues behind it. *)
Lemma evaluate_self_deferring h v t d :
  0 <= v -> self_deferring h v ->
  returns (fun f => evaluate f (mkN v (h :: t))) d (mkN v (h :: t)).
Proof.
  intros Hv Hh. destruct (Z_le_gt_dec 10 d) as [Hd|Hd].
  - exists 1%nat. intros f Hf. spend f. apply evaluate_past_bound. exact Hd.
  - apply (evaluate_head_defers v h t d (mkN v [h])); cbn; try lia; try congruence.
    apply Hh.
Qed.

Lemma op_self_deferring h v t o d :
  0 <= v -> self_deferring h v ->
  returns (fun f => op f (mkN v (h :: t)) o) d (mkN v (h :: t ++ [o])).
Proof.
  intros Hv Hh.
  destruct (evaluate_self_deferring h v (t ++ [o]) d Hv Hh) as [f0 H0].
  exists (S f0). intros f Hf. spend f.
  rewrite op_S. cbn [value deferred]. rewrite new_N_ok by exact Hv.
  cbn [and_then app]. apply H0. lia.
Qed.

Lemma op_plain_self_deferring o v d :
  0 <= v -> self_deferring o v ->
  returns (fun f => op f (mkN v []) o) d (mkN v [o]).
Proof.
  intros Hv Ho.
  destruct (evaluate_self_deferring o v [] d Hv Ho) as [f0 H0].
  exists (S f0). intros f Hf. spend f.
  rewrite op_S. cbn [value deferred]. rewrite new_N_ok by exact Hv.
  cbn [and_then app]. apply H0. lia.
Qed.

(** ** The loops, one iteration at a time *)

Section LoopSteps.
Variable d : Z.

Lemma execute_ADD_returns a b r :
  returns (fun f => ADD_loop f a b) d r ->
  returns (fun f => execute f (ADD b) a) d r.
Proof.
  intros [f0 H0]. exists (S f0). intros f Hf. spend f.
  rewrite execute_S. apply H0. lia.
Qed.

Lemma execute_SUB_returns a b r :
  returns (fun f => SUB_loop f a b) d r ->
  returns (fun f => execute f (SUB b) a) d r.
Proof.
  intros [f0 H0]. exists (S f0). intros f Hf. spend f.
  rewrite execute_S. apply H0. lia.
Qed.

Lemma execute_MUL_returns a b r :
  returns (fun f => MUL_loop f a a b) d r ->
  returns (fun f => execute f (MUL b) a) d r.
Proof.
  intros [f0 H0]. exists (S f0). intros f Hf. spend f.
  rewrite execute_S. apply H0. lia.
Qed.

Lemma execute_DIV_returns a b r :
  returns (fun f => DIV_loop f b ZERO a) d r ->
  returns (fun f => execute f (DIV b) a) d r.
Proof.
  intros [f0 H0]. exists (S f0). intros f Hf. spend f.
  rewrite execute_S. apply H0. lia.
Qed.

Lemma ADD_loop_step a b a' b' r :
  0 < value b ->
  returns (fun f => op f a INC) d a' ->
  returns (fun f => op f b DEC) d b' ->
  returns (fun f => ADD_loop f a' b') d r ->
  returns (fun f => ADD_loop f a b) d r.
Proof.
  intros Hb [f1 H1] [f2 H2] [f3 H3]. exists (S (f1 + f2 + f3)). intros f Hf.
  spend f. rewrite ADD_loop_S.
  destruct (Z.ltb_spec 0 (value b)); [|lia].
  rewrite H1 by lia. cbn [and_then]. rewrite H2 by lia. cbn [and_then].
  apply H3. lia.
Qed.

Lemma ADD_loop_done a b :
  value b <= 0 -> deferred b = [] ->
  returns (fun f => ADD_loop f a b) d a.
Proof.
  intros Hb Hds. exists 1%nat. intros f Hf. spend f. rewrite ADD_loop_S.
  destruct (Z.ltb_spec 0 (value b)); [lia|].
  rewrite empty_length by exact Hds. reflexivity.
Qed.

Lemma ADD_loop_replay a b r :
  value b <= 0 -> deferred b <> [] ->
  returns (fun f => op f a (ADD b)) d r ->
  returns (fun f => ADD_loop f a b) d r.
Proof.
  intros Hb Hds [f0 H0]. exists (S f0). intros f Hf. spend f.
  rewrite ADD_loop_S.
  destruct (Z.ltb_spec 0 (value b)); [lia|].
  rewrite nonempty_length by exact Hds. apply H0. lia.
Qed.

Lemma SUB_loop_step a b a' b' r :
  0 < value b ->
  returns (fun f => op f a DEC) d a' ->
  returns (fun f => op f b DEC) d b' ->
  returns (fun f => SUB_loop f a' b') d r ->
  returns (fun f => SUB_loop f a b) d r.
Proof.
  intros Hb [f1 H1] [f2 H2] [f3 H3]. exists (S (f1 + f2 + f3)). intros f Hf.
  spend f. rewrite SUB_loop_S.
  destruct (Z.ltb_spec 0 (value b)); [|lia].
  rewrite H1 by lia. cbn [and_then]. rewrite H2 by lia. cbn [and_then].
  apply H3. lia.
Qed.

Lemma SUB_loop_done a b :
  value b <= 0 -> deferred b = [] ->
  returns (fun f => SUB_loop f a b) d a.
Proof.
  intros Hb Hds. exists 1%nat. intros f Hf. spend f. rewrite SUB_loop_S.
  destruct (Z.ltb_spec 0 (value b)); [lia|].
  rewrite empty_length by exact Hds. reflexivity.
Qed.

Lemma SUB_loop_replay a b r :
  value b <= 0 -> deferred b <> [] ->
  returns (fun f => op f a (ADD b)) d r ->
  returns (fun f => SUB_loop f a b) d r.
Proof.
  intros Hb Hds [f0 H0]. exists (S f0). intros f Hf. spend f.
  rewrite SUB_loop_S.
  destruct (Z.ltb_spec 0 (value b)); [lia|].
  rewrite nonempty_length by exact Hds. apply H0. lia.
Qed.

Lemma MUL_loop_step n a c a' c' r :
  1 < value c ->
  returns (fun f => op f a (ADD n)) d a' ->
  returns (fun f => op f c DEC) d c' ->
  returns (fun f => MUL_loop f n a' c') d r ->
  returns (fun f => MUL_loop f n a c) d r.
Proof.
  intros Hc [f1 H1] [f2 H2] [f3 H3]. exists (S (f1 + f2 + f3)). intros f Hf.
  spend f. rewrite MUL_loop_S.
  destruct (Z.ltb_spec 1 (value c)); [|lia].
  rewrite H1 by lia. cbn [and_then]. rewrite H2 by lia. cbn [and_then].
  apply H3. lia.
Qed.

Lemma MUL_loop_done n a c :
  value c <= 1 -> returns (fun f => MUL_loop f n a c) d a.
Proof.
  intros Hc. exists 1%nat. intros f Hf. spend f. rewrite MUL_loop_S.
  destruct (Z.ltb_spec 1 (value c)); [lia | reflexivity].
Qed.

Lemma DIV_loop_step b q r q' r' res :
  value b <= value r -> 0 < value b ->
  returns (fun f => op f r (SUB b)) d r' ->
  returns (fun f => op f q INC) d q' ->
  returns (fun f => DIV_loop f b q' r') d res ->
  returns (fun f => DIV_loop f b q r) d res.
Proof.
  intros Hle Hb [f1 H1] [f2 H2] [f3 H3]. exists (S (f1 + f2 + f3)).
  intros f Hf. spend f. rewrite DIV_loop_S.
  destruct (Z.leb_spec (value b) (value r)); [|lia].
  destruct (Z.ltb_spec 0 (value b)); [|lia].
  cbn [andb]. rewrite H1 by lia. cbn [and_then]. rewrite H2 by lia.
  cbn [and_then]. apply H3. lia.
Qed.

Lemma DIV_loop_exact b q r :
  value r < value b \/ value b <= 0 -> value r = 0 ->
  returns (fun f => DIV_loop f b q r) d q.
Proof.
  intros Hstop Hr. exists 1%nat. intros f Hf. spend f. rewrite DIV_loop_S.
  replace ((value b <=? value r) && (0 <? value b)) with false.
  - rewrite Hr. reflexivity.
  - symmetry. apply andb_false_iff.
    destruct Hstop; [left; apply Z.leb_gt | right; apply Z.ltb_ge]; lia.
Qed.

Lemma DIV_loop_rest b q r rem res :
  value r < value b \/ value b <= 0 -> value r <> 0 ->
  returns (fun f => op f r (DIV b)) d rem ->
  returns (fun f => op f q (ADD rem)) d res ->
  returns (fun f => DIV_loop f b q r) d res.
Proof.
  intros Hstop Hr [f1 H1] [f2 H2]. exists (S (f1 + f2)). intros f Hf.
  spend f. rewrite DIV_loop_S.
  replace ((value b <=? value r) && (0 <? value b)) with false.
  - destruct (Z.eqb_spec (value r) 0); [contradiction|].
    rewrite H1 by lia. cbn [and_then]. apply H2. lia.
  - symmetry. apply andb_false_iff.
    destruct Hstop; [left; apply Z.leb_gt | right; apply Z.ltb_ge]; lia.
Qed.
End LoopSteps.

(** ** The primitives on plain values *)

Lemma op_INC_plain v d :
  0 <= v -> d < 10 ->
  returns (fun f => op f (mkN v []) INC) d (mkN (v + 1) []).
Proof.
  intros Hv Hd. apply op_plain; cbn; try lia.
  exists 1%nat. intros f Hf. spend f. rewrite execute_S. cbn [value deferred].
  apply new_N_ok. lia.
Qed.

Lemma op_DEC_plain v d :
  0 < v -> d < 10 ->
  returns (fun f => op f (mkN v []) DEC) d (mkN (v - 1) []).
Proof.
  intros Hv Hd. apply op_plain; cbn; try lia.
  exists 1%nat. intros f Hf. spend f. rewrite execute_S. cbn [value deferred].
  destruct (Z.eqb_spec v 0); [lia|]. apply new_N_ok. lia.
Qed.

Lemma op_DEC_zero d :
  returns (fun f => op f (mkN 0 []) DEC) d (mkN 0 [DEC]).
Proof. apply op_plain_self_deferring; [lia | apply DEC_self_deferring]. Qed.

(** ** [ADD], [SUB], [MUL] with plain operands *)

Lemma ADD_loop_plain n : forall a b d,
  b = Z.of_nat n -> 0 <= a -> d < 10 ->
  returns (fun f => ADD_loop f (mkN a []) (mkN b [])) d (mkN (a + b) []).
Proof.
  induction n as [|n IH]; intros a b d Hb Ha Hd.
  - replace (a + b) with a by lia. apply ADD_loop_done; cbn; [lia | reflexivity].
  - apply (ADD_loop_step d _ _ (mkN (a + 1) []) (mkN (b - 1) [])).
    + cbn. lia.
    + apply op_INC_plain; lia.
    + apply op_DEC_plain; lia.
    + replace (a + b) with (a + 1 + (b - 1)) by lia. apply IH; lia.
Qed.

Lemma op_ADD_plain a b d :
  0 <= a -> 0 <= b -> d < 9 ->
  returns (fun f => op f (mkN a []) (ADD (mkN b []))) d (mkN (a + b) []).
Proof.
  intros Ha Hb Hd. apply op_plain; cbn; try lia.
  apply execute_ADD_returns.
  apply (ADD_loop_plain (Z.to_nat b)); lia.
Qed.

Lemma owing_snoc k : owing k ++ [DEC] = owing (S k).
Proof. unfold owing. symmetry. apply repeat_cons. Qed.

Lemma op_DEC_owing k d :
  returns (fun f => op f (mkN 0 (owing k)) DEC) d (mkN 0 (owing (S k))).
Proof.
  destruct k as [|k].
  - apply op_DEC_zero.
  - rewrite <- (owing_snoc (S k)). cbn [owing repeat app].
    apply op_self_deferring; [lia | apply DEC_self_deferring].
Qed.

Lemma SUB_loop_owing n : forall k b d,
  b = Z.of_nat n -> d < 10 ->
  returns (fun f => SUB_loop f (mkN 0 (owing k)) (mkN b [])) d
          (mkN 0 (owing (k + n))).
Proof.
  induction n as [|n IH]; intros k b d Hb Hd.
  - rewrite Nat.add_0_r. apply SUB_loop_done; cbn; [lia | reflexivity].
  - apply (SUB_loop_step d _ _ (mkN 0 (owing (S k))) (mkN (b - 1) [])).
    + cbn. lia.
    + apply op_DEC_owing.
    + apply op_DEC_plain; lia.
    + replace (k + S n)%nat with (S k + n)%nat by lia. apply IH; lia.
Qed.

Lemma SUB_loop_plain n : forall a b d,
  b = Z.of_nat n -> 0 <= a -> d < 10 ->
  returns (fun f => SUB_loop f (mkN a []) (mkN b [])) d (SUB_result a b).
Proof.
  induction n as [|n IH]; intros a b d Hb Ha Hd.
  - unfold SUB_result. destruct (Z.leb_spec b a); [|lia].
    replace (a - b) with a by lia.
    apply SUB_loop_done; cbn; [lia | reflexivity].
  - destruct (Z.eq_dec a 0) as [->|Hpos].
    + apply (SUB_loop_step d _ _ (mkN 0 (owing 1)) (mkN (b - 1) [])).
      * cbn. lia.
      * apply (op_DEC_owing 0).
      * apply op_DEC_plain; lia.
      * unfold SUB_result. destruct (Z.leb_spec b 0); [lia|].
        replace (Z.to_nat (b - 0)) with (1 + n)%nat by lia.
        apply SUB_loop_owing; lia.
    + apply (SUB_loop_step d _ _ (mkN (a - 1) []) (mkN (b - 1) [])).
      * cbn. lia.
      * apply op_DEC_plain; lia.
      * apply op_DEC_plain; lia.
      * replace (SUB_result a b) with (SUB_result (a - 1) (b - 1)).
        -- apply IH; lia.
        -- unfold SUB_result.
           destruct (Z.leb_spec (b - 1) (a - 1)), (Z.leb_spec b a); try lia;
             first [ f_equal; lia | do 3 f_equal; lia ].
Qed.

Lemma SUB_result_value a b : 0 <= a -> 0 <= value (SUB_result a b).
Proof.
  intros Ha. unfold SUB_result. destruct (Z.leb_spec b a); cbn; lia.
Qed.

Lemma op_SUB_plain a b d :
  0 <= a -> 0 <= b -> d < 9 ->
  returns (fun f => op f (mkN a []) (SUB (mkN b []))) d (SUB_result a b).
Proof.
  intros Ha Hb Hd. apply op_plain; try lia.
  - apply SUB_result_value. exact Ha.
  - apply execute_SUB_returns. apply (SUB_loop_plain (Z.to_nat b)); lia.
Qed.

Lemma MUL_loop_plain m : forall v w c d,
  c = 1 + Z.of_nat m -> 0 <= v -> 0 <= w -> d < 9 ->
  returns (fun f => MUL_loop f (mkN v []) (mkN w []) (mkN c [])) d
          (mkN (w + v * Z.of_nat m) []).
Proof.
  induction m as [|m IH]; intros v w c d Hc Hv Hw Hd.
  - replace (w + v * Z.of_nat 0) with w by lia.
    apply MUL_loop_done. cbn. lia.
  - apply (MUL_loop_step d _ _ _ (mkN (w + v) []) (mkN (c - 1) [])).
    + cbn. lia.
    + apply op_ADD_plain; lia.
    + apply op_DEC_plain; lia.
    + replace (w + v * Z.of_nat (S m)) with (w + v + v * Z.of_nat m) by lia.
      apply IH; lia.
Qed.

Lemma op_MUL_plain a b d :
  0 <= a -> 0 <= b -> d < 8 ->
  returns (fun f => op f (mkN a []) (MUL (mkN b []))) d (MUL_result a b).
Proof.
  intros Ha Hb Hd. unfold MUL_result.
  destruct (Z.ltb_spec 1 b).
  - apply op_plain; cbn; try nia.
    apply execute_MUL_returns.
    replace (a * b) with (a + a * Z.of_nat (Z.to_nat (b - 1))) by nia.
    apply MUL_loop_plain; lia.
  - apply op_plain; cbn; try lia.
    apply execute_MUL_returns. apply MUL_loop_done. cbn. lia.
Qed.

(** ** [DIV] *)

Lemma remainder_chain_value k r b : value (remainder_chain k r b) = 0.
Proof. destruct k; reflexivity. Qed.

Lemma remainder_chain_deferred k r b : deferred (remainder_chain k r b) <> [].
Proof. destruct k; cbn; congruence. Qed.

Lemma op_past_bound_returns this o d :
  10 <= d -> 0 <= value this ->
  returns (fun f => op f this o) d (mkN (value this) (deferred this ++ [o])).
Proof.
  intros Hd Hv. exists 2%nat. intros f Hf. spend f. spend f.
  apply op_past_bound; assumption.
Qed.

Lemma op_ADD_remainder_chain q k r b d :
  0 <= q ->
  returns (fun f => op f (mkN q []) (ADD (remainder_chain k r b))) d
          (mkN q [ADD (remainder_chain k r b)]).
Proof.
  intros Hq. apply op_plain_self_deferring; [exact Hq|].
  apply ADD_self_deferring;
    [exact Hq | apply remainder_chain_value | apply remainder_chain_deferred].
Qed.

Lemma execute_DIV_rest k : forall d r b,
  0 < r -> r < value b \/ value b <= 0 -> 10 - d = Z.of_nat k ->
  returns (fun f => execute f (DIV b) (mkN r [])) d (remainder_chain k r b).
Proof.
  induction k as [|k IH]; intros d r b Hr Hstop Hd; apply execute_DIV_returns.
  - apply (DIV_loop_rest d _ _ _ (mkN r [DIV b])); cbn [value]; try lia.
    + apply (op_past_bound_returns (mkN r []) (DIV b)); cbn; lia.
    + apply (op_past_bound_returns ZERO); cbn; lia.
  - apply (DIV_loop_rest d _ _ _ (remainder_chain k r b)); cbn [value]; try lia.
    + apply op_plain; try lia.
      * rewrite remainder_chain_value. lia.
      * apply IH; try assumption. lia.
    + apply (op_ADD_remainder_chain 0). lia.
Qed.

Lemma op_DIV_rest r b d :
  0 < r -> r < value b \/ value b <= 0 -> 0 <= d < 10 ->
  returns (fun f => op f (mkN r []) (DIV b)) d
          (remainder_chain (Z.to_nat (9 - d)) r b).
Proof.
  intros Hr Hstop Hd. apply op_plain; try lia.
  - rewrite remainder_chain_value. lia.
  - apply execute_DIV_rest; try assumption. lia.
Qed.

Lemma DIV_loop_stop b q r d :
  0 <= q -> 0 <= r -> r < value b \/ value b <= 0 -> 0 <= d < 10 ->
  returns (fun f => DIV_loop f b (mkN q []) (mkN r [])) d (DIV_result d q r b).
Proof.
  intros Hq Hr Hstop Hd. unfold DIV_result.
  destruct (Z.eqb_spec r 0) as [->|Hr0].
  - apply DIV_loop_exact; [exact Hstop | reflexivity].
  - apply (DIV_loop_rest d _ _ _ (remainder_chain (Z.to_nat (9 - d)) r b));
      cbn [value]; try assumption.
    + apply op_DIV_rest; [lia | exact Hstop | exact Hd].
    + apply op_ADD_remainder_chain. exact Hq.
Qed.

Lemma DIV_loop_plain n : forall b q r d,
  0 < b -> 0 <= q -> 0 <= r -> r / b = Z.of_nat n -> 0 <= d < 9 ->
  returns (fun f => DIV_loop f (mkN b []) (mkN q []) (mkN r [])) d
          (DIV_result d (q + r / b) (r mod b) (mkN b [])).
Proof.
  induction n as [|n IH]; intros b q r d Hb Hq Hr Hn Hd.
  - assert (r < b) by (apply Z.div_small_iff in Hn; lia).
    rewrite Z.div_small, Z.mod_small, Z.add_0_r by lia.
    apply DIV_loop_stop; cbn; lia.
  - assert (b <= r).
    { destruct (Z_lt_ge_dec r b) as [Hlt|]; [|lia].
      rewrite Z.div_small in Hn by lia. lia. }
    assert (Hdiv : (r - b) / b = r / b - 1).
    { replace (r - b) with (r + (-1) * b) by lia. rewrite Z.div_add by lia. lia. }
    assert (Hmod : (r - b) mod b = r mod b).
    { replace (r - b) with (r + (-1) * b) by lia. apply Z.mod_add. lia. }
    apply (DIV_loop_step d _ _ _ (mkN (q + 1) []) (mkN (r - b) [])); cbn [value]; try lia.
    + replace (mkN (r - b) []) with (SUB_result r b).
      * apply op_SUB_plain; lia.
      * unfold SUB_result. destruct (Z.leb_spec b r); [reflexivity | lia].
    + apply op_INC_plain; lia.
    + replace (q + r / b) with (q + 1 + (r - b) / b) by lia.
      rewrite <- Hmod. apply IH; lia.
Qed.

Lemma op_DIV_plain a b d :
  0 <= a -> 0 < b -> 0 <= d < 8 ->
  returns (fun f => op f (mkN a []) (DIV (mkN b []))) d
          (DIV_result (d + 1) (a / b) (a mod b) (mkN b [])).
Proof.
  intros Ha Hb Hd. apply op_plain; try lia.
  - unfold DIV_result. destruct (a mod b =? 0); cbn; apply Z.div_pos; lia.
  - apply execute_DIV_returns.
    apply (DIV_loop_plain (Z.to_nat (a / b)) b 0 a (d + 1)); try lia.
    pose proof (Z.div_pos a b). lia.
Qed.

(** ** Settled values *)

Lemma settled_plain v : 0 <= v -> settled (mkN v []).
Proof. intros Hv. split; [exact Hv | cbn; congruence]. Qed.

Lemma settled_head v h t : 0 <= v -> self_deferring h v -> settled (mkN v (h :: t)).
Proof.
  intros Hv Hh. split; [exact Hv|]. cbn. intros h' t' E.
  injection E as <- <-. exact Hh.
Qed.

Lemma settled_cases n :
  settled n ->
  n = mkN (value n) [] \/
  exists h t, n = mkN (value n) (h :: t) /\ self_deferring h (value n).
Proof.
  intros [Hv Hh]. destruct n as [v [|h t]]; cbn in *.
  - left. reflexivity.
  - right. exists h, t. split; [reflexivity | apply (Hh h t); reflexivity].
Qed.

Lemma evaluate_plain v d :
  0 <= v -> returns (fun f => evaluate f (mkN v [])) d (mkN v []).
Proof.
  intros Hv. exists 2%nat. intros f Hf. spend f. rewrite evaluate_S.
  destruct (10 <? d + 1); [reflexivity|].
  cbn [value deferred]. rewrite new_N_ok by exact Hv. cbn [and_then].
  spend f. rewrite evaluate_loop_nil. f_equal. lia.
Qed.

(** [evaluate] leaves a settled value as it is, at any depth. *)
Lemma evaluate_settled n d :
  settled n -> returns (fun f => evaluate f n) d n.
Proof.
  intros Hn. pose proof Hn as [Hv _].
  destruct (settled_cases n Hn) as [E | (h & t & E & Hh)]; rewrite E.
  - apply evaluate_plain. exact Hv.
  - apply evaluate_self_deferring; assumption.
Qed.

(** [op] on a settled value that has deferred work only queues. *)
Lemma op_settled_queues n o d :
  settled n -> deferred n <> [] ->
  returns (fun f => op f n o) d (mkN (value n) (deferred n ++ [o])).
Proof.
  intros [Hv Hh] Hds. destruct n as [v [|h t]]; cbn in *; [congruence|].
  apply op_self_deferring; [exact Hv | apply (Hh h t); reflexivity].
Qed.

Lemma settled_queues n o :
  settled n -> deferred n <> [] -> settled (mkN (value n) (deferred n ++ [o])).
Proof.
  intros [Hv Hh] Hds. destruct n as [v [|h t]]; cbn in *; [congruence|].
  apply settled_head; [exact Hv | apply (Hh h t); reflexivity].
Qed.

(** ** Calls that do not return *)

(** The operand [b] of a loop is stuck when it is settled with deferred
    work: [b.op(DEC)] queues the decrement and the magnitude stays. *)
Lemma op_DEC_stuck f b d b' d' :
  settled b -> deferred b <> [] -> op f b DEC d = Ret b' d' ->
  settled b' /\ deferred b' <> [] /\ value b' = value b.
Proof.
  intros Hb Hds Hop.
  destruct (op_returns_unique _ _ _ _ _ _ _ (op_settled_queues b DEC d Hb Hds) Hop)
    as [-> _].
  split; [apply settled_queues; assumption|].
  split; [|reflexivity].
  cbn. destruct (deferred b); cbn; congruence.
Qed.

Lemma ADD_loop_stuck a b d :
  settled b -> deferred b <> [] -> 0 < value b ->
  never_returns (fun f => ADD_loop f a b) d.
Proof.
  intros Hb Hds Hpos f. revert a b d Hb Hds Hpos.
  induction f as [|f IH]; intros a b d Hb Hds Hpos r d'.
  - destruct fuel_O as (_ & _ & _ & _ & E & _). rewrite E. discriminate.
  - rewrite ADD_loop_S. destruct (Z.ltb_spec 0 (value b)); [|lia].
    destruct (op f a INC d) as [a' d1| |]; cbn [and_then]; try discriminate.
    destruct (op f b DEC d1) as [b' d2| |] eqn:Eb; cbn [and_then]; try discriminate.
    destruct (op_DEC_stuck _ _ _ _ _ Hb Hds Eb) as (Hb' & Hds' & Hv').
    apply IH; try assumption. lia.
Qed.

Lemma SUB_loop_stuck a b d :
  settled b -> deferred b <> [] -> 0 < value b ->
  never_returns (fun f => SUB_loop f a b) d.
Proof.
  intros Hb Hds Hpos f. revert a b d Hb Hds Hpos.
  induction f as [|f IH]; intros a b d Hb Hds Hpos r d'.
  - destruct fuel_O as (_ & _ & _ & _ & _ & E & _). rewrite E. discriminate.
  - rewrite SUB_loop_S. destruct (Z.ltb_spec 0 (value b)); [|lia].
    destruct (op f a DEC d) as [a' d1| |]; cbn [and_then]; try discriminate.
    destruct (op f b DEC d1) as [b' d2| |] eqn:Eb; cbn [and_then]; try discriminate.
    destruct (op_DEC_stuck _ _ _ _ _ Hb Hds Eb) as (Hb' & Hds' & Hv').
    apply IH; try assumption. lia.
Qed.

Lemma MUL_loop_stuck n a c d :
  settled c -> deferred c <> [] -> 1 < value c ->
  never_returns (fun f => MUL_loop f n a c) d.
Proof.
  intros Hc Hds Hpos f. revert a c d Hc Hds Hpos.
  induction f as [|f IH]; intros a c d Hc Hds Hpos r d'.
  - destruct fuel_O as (_ & _ & _ & _ & _ & _ & E & _). rewrite E. discriminate.
  - rewrite MUL_loop_S. destruct (Z.ltb_spec 1 (value c)); [|lia].
    destruct (op f a (ADD n) d) as [a' d1| |]; cbn [and_then]; try discriminate.
    destruct (op f c DEC d1) as [c' d2| |] eqn:Ec; cbn [and_then]; try discriminate.
    destruct (op_DEC_stuck _ _ _ _ _ Hc Hds Ec) as (Hc' & Hds' & Hv').
    apply IH; try assumption. lia.
Qed.

(** Within the bound, [op] on a plain receiver does not return when
    [execute] does not. *)
Lemma op_plain_never_returns v o d :
  d < 10 ->
  never_returns (fun f => execute f o (mkN v [])) (d + 1) ->
  never_returns (fun f => op f (mkN v []) o) d.
Proof.
  intros Hd Hex f r d'.
  destruct f as [|f]; [destruct fuel_O as (_ & _ & E & _); rewrite E; discriminate|].
  rewrite op_S, new_N_eq. cbn [value deferred app].
  destruct (v <? 0) eqn:Hv; cbn [and_then]; [discriminate|].
  destruct f as [|f]; [destruct fuel_O as (E & _); rewrite E; discriminate|].
  rewrite evaluate_S. destruct (Z.ltb_spec 10 (d + 1)); [lia|].
  rewrite new_N_eq. cbn [value deferred]. rewrite Hv. cbn [and_then].
  destruct f as [|f]; [destruct fuel_O as (_ & E & _); rewrite E; discriminate|].
  rewrite evaluate_loop_cons.
  destruct (execute f o (mkN v []) (d + 1)) as [c dc| |] eqn:Ec;
    cbn [and_then]; try discriminate.
  exfalso. exact (Hex _ _ _ Ec).
Qed.

Lemma execute_never_returns o n d :
  (match o with
   | ADD b => never_returns (fun f => ADD_loop f n b) d
   | SUB b => never_returns (fun f => SUB_loop f n b) d
   | MUL b => never_returns (fun f => MUL_loop f n n b) d
   | DIV b => never_returns (fun f => DIV_loop f b ZERO n) d
   | _ => False
   end) ->
  never_returns (fun f => execute f o n) d.
Proof.
  intros H f r d'.
  destruct f as [|f];
    [destruct fuel_O as (_ & _ & _ & E & _); rewrite E; discriminate|].
  rewrite execute_S. destruct o; try contradiction; apply H.
Qed.

Lemma DIV_loop_stuck b q v d :
  settled b -> deferred b <> [] -> 0 < value b <= v -> d < 10 ->
  never_returns (fun f => DIV_loop f b q (mkN v [])) d.
Proof.
  intros Hb Hds Hv Hd f r d'.
  destruct f as [|f];
    [destruct fuel_O as (_ & _ & _ & _ & _ & _ & _ & E); rewrite E; discriminate|].
  rewrite DIV_loop_S. cbn [value].
  destruct (Z.leb_spec (value b) v); [|lia].
  destruct (Z.ltb_spec 0 (value b)); [|lia]. cbn [andb].
  destruct (op f (mkN v []) (SUB b) d) as [r1 d1| |] eqn:E1;
    cbn [and_then]; try discriminate.
  exfalso. revert E1. apply op_plain_never_returns; [exact Hd|].
  apply execute_never_returns. apply SUB_loop_stuck; assumption.
Qed.

(** ** The public operation API *)

Lemma SUB_result_settled a b : 0 <= a -> settled (SUB_result a b).
Proof.
  intros Ha. unfold SUB_result. destruct (Z.leb_spec b a).
  - apply settled_plain. lia.
  - destruct (Z.to_nat (b - a)) as [|k] eqn:Hk; [lia|].
    apply settled_head; [lia | apply DEC_self_deferring].
Qed.

Lemma MUL_result_settled a b : 0 <= a -> 0 <= b -> settled (MUL_result a b).
Proof.
  intros Ha Hb. unfold MUL_result.
  destruct (1 <? b); apply settled_plain; nia.
Qed.

Lemma DIV_result_settled d q r b : 0 <= q -> settled (DIV_result d q r b).
Proof.
  intros Hq. unfold DIV_result. destruct (r =? 0).
  - apply settled_plain. exact Hq.
  - apply settled_head; [exact Hq|].
    apply ADD_self_deferring;
      [exact Hq | apply remainder_chain_value | apply remainder_chain_deferred].
Qed.

(** A public call on a plain receiver: it returns a settled value, or it
    does not return. *)
Lemma op_plain_outcome v o :
  0 <= v ->
  (forall b, operand o = Some b -> settled b) ->
  (exists r, returns (fun f => op f (mkN v []) o) 0 r /\ settled r) \/
  never_returns (fun f => op f (mkN v []) o) 0.
Proof.
  intros Hv Hb. destruct o as [| |b|b|b|b].
  - (* INC *)
    left. exists (mkN (v + 1) []).
    split; [apply op_INC_plain; lia | apply settled_plain; lia].
  - (* DEC *)
    left. destruct (Z.eq_dec v 0) as [->|Hpos].
    + exists (mkN 0 [DEC]). split; [apply op_DEC_zero|].
      apply settled_head; [lia | apply DEC_self_deferring].
    + exists (mkN (v - 1) []).
      split; [apply op_DEC_plain; lia | apply settled_plain; lia].
  - (* ADD *)
    specialize (Hb b eq_refl). pose proof Hb as [Hw _].
    destruct b as [w [|h t]]; cbn [value] in Hw.
    + left. exists (mkN (v + w) []).
      split; [apply op_ADD_plain; lia | apply settled_plain; lia].
    + destruct (Z.eq_dec w 0) as [->|Hpos].
      * assert (Hself : self_deferring (ADD (mkN 0 (h :: t))) v)
          by (apply ADD_self_deferring; cbn; [lia | reflexivity | congruence]).
        left. exists (mkN v [ADD (mkN 0 (h :: t))]).
        split; [apply op_plain_self_deferring | apply settled_head]; assumption.
      * right. apply op_plain_never_returns; [lia|].
        apply execute_never_returns, ADD_loop_stuck; cbn; [exact Hb | congruence | lia].
  - (* SUB *)
    specialize (Hb b eq_refl). pose proof Hb as [Hw _].
    destruct b as [w [|h t]]; cbn [value] in Hw.
    + left. exists (SUB_result v w).
      split; [apply op_SUB_plain; lia | apply SUB_result_settled; lia].
    + destruct (Z.eq_dec w 0) as [->|Hpos].
      * assert (Hself : self_deferring (ADD (mkN 0 (h :: t))) v)
          by (apply ADD_self_deferring; cbn; [lia | reflexivity | congruence]).
        left. exists (mkN v [ADD (mkN 0 (h :: t))]).
        split; [|apply settled_head; assumption].
        apply op_plain; cbn; try lia.
        apply execute_SUB_returns, SUB_loop_replay; cbn; [lia | congruence |].
        apply op_plain_self_deferring; assumption.
      * right. apply op_plain_never_returns; [lia|].
        apply execute_never_returns, SUB_loop_stuck; cbn; [exact Hb | congruence | lia].
  - (* MUL *)
    specialize (Hb b eq_refl). pose proof Hb as [Hw _].
    destruct b as [w [|h t]]; cbn [value] in Hw.
    + left. exists (MUL_result v w).
      split; [apply op_MUL_plain; lia | apply MUL_result_settled; lia].
    + destruct (Z_le_gt_dec w 1) as [Hle|Hgt].
      * left. exists (mkN v []). split; [|apply settled_plain; exact Hv].
        apply op_plain; cbn; try lia.
        apply execute_MUL_returns, MUL_loop_done. cbn. exact Hle.
      * right. apply op_plain_never_returns; [lia|].
        apply execute_never_returns, MUL_loop_stuck; cbn; [exact Hb | congruence | lia].
  - (* DIV *)
    specialize (Hb b eq_refl). pose proof Hb as [Hw _].
    destruct (Z_lt_ge_dec v (value b)) as [Hlt|Hge];
      [|destruct (Z.eq_dec (value b) 0) as [Hzero|Hpos]].
    + left. exists (DIV_result 1 0 v b).
      split; [|apply DIV_result_settled; lia].
      apply op_plain; try lia.
      * unfold DIV_result. destruct (v =? 0); cbn; lia.
      * apply execute_DIV_returns, DIV_loop_stop; lia.
    + left. exists (DIV_result 1 0 v b).
      split; [|apply DIV_result_settled; lia].
      apply op_plain; try lia.
      * unfold DIV_result. destruct (v =? 0); cbn; lia.
      * apply execute_DIV_returns, DIV_loop_stop; lia.
    + destruct b as [w [|h t]]; cbn [value] in *.
      * left. exists (DIV_result 1 (v / w) (v mod w) (mkN w [])).
        split; [apply (op_DIV_plain v w 0); lia|].
        apply DIV_result_settled. apply Z.div_pos; lia.
      * right. apply op_plain_never_returns; [lia|].
        apply execute_never_returns, DIV_loop_stuck; cbn; [exact Hb | congruence | lia | lia].
Qed.

Lemma op_outcome this o :
  settled this ->
  (forall b, operand o = Some b -> settled b) ->
  (exists r, returns (fun f => op f this o) 0 r /\ settled r) \/
  never_returns (fun f => op f this o) 0.
Proof.
  intros Hthis Hb. destruct this as [v [|h t]].
  - apply op_plain_outcome; [apply Hthis | exact Hb].
  - left. exists (mkN v ((h :: t) ++ [o])). split.
    + apply (op_settled_queues (mkN v (h :: t))); [exact Hthis | cbn; congruence].
    + apply (settled_queues (mkN v (h :: t))); [exact Hthis | cbn; congruence].
Qed.

Lemma reachable_settled n : reachable n -> settled n.
Proof.
  induction 1 as [x Hx | this o fuel r d _ IHthis _ IHb Hrun].
  - apply settled_plain. exact Hx.
  - destruct (op_outcome this o IHthis IHb) as [(r0 & Hret & Hr0) | Hnever].
    + destruct (op_returns_unique _ _ _ _ _ _ _ Hret Hrun) as [-> _]. exact Hr0.
    + exfalso. exact (Hnever _ _ _ Hrun).
Qed.

Lemma reachable_wf n : reachable n -> wfN n.
Proof.
  induction 1 as [x Hx | this o fuel r d _ IHthis _ IHb Hrun].
  - apply wfN_plain. exact Hx.
  - assert (Ho : wfOP o).
    { destruct o; constructor; apply IHb; reflexivity. }
    pose proof (safe_op fuel (engine_is_safe fuel) this o 0 IHthis Ho) as Hsafe.
    unfold run in Hrun. rewrite Hrun in Hsafe. apply Hsafe.
Qed.

(** * The scenarios of the README and of the tests of main.ts *)

Example five_plus_three :
  run (op 100 (value_from 5) (ADD (value_from 3))) = Ret (value_from 8) 0.
Proof. vm_compute. reflexivity. Qed.

Example three_minus_five :
  run (op 100 (value_from 3) (SUB (value_from 5))) = Ret (mkN 0 [DEC; DEC]) 0 /\
  toString (mkN 0 [DEC; DEC]) = "0[DEC, DEC]"%string.
Proof. split; vm_compute; reflexivity. Qed.

Example five_times_three :
  run (op 200 (value_from 5) (MUL (value_from 3))) = Ret (value_from 15) 0.
Proof. vm_compute. reflexivity. Qed.

Example twelve_by_four :
  run (op 200 (value_from 12) (DIV (value_from 4))) = Ret (value_from 3) 0 /\
  toString (value_from 3) = "3"%string.
Proof. split; vm_compute; reflexivity. Qed.

Example five_by_zero :
  exists c,
    run (op 200 (value_from 5) (DIV ZERO)) = Ret (mkN 0 [ADD c]) 0.
Proof. eexists. vm_compute. reflexivity. Qed.

Example five_thirds_rendering :
  toString five_thirds =
  "1[ADD(0[ADD(0[ADD(0[ADD(0[ADD(0[ADD(0[ADD(0[ADD(0[ADD(0[ADD(2[DIV(3)])])])])])])])])])])]"%string.
Proof. vm_compute. reflexivity. Qed.

(** * The claims *)

Lemma never_returns_out_of_fuel this o :
  wfN this -> wfOP o ->
  never_returns (fun f => op f this o) 0 ->
  forall fuel, run (op fuel this o) = OutOfFuel.
Proof.
  intros Hthis Ho Hnever fuel.
  pose proof (safe_op fuel (engine_is_safe fuel) this o 0 Hthis Ho) as Hsafe.
  unfold run. destruct (op fuel this o 0) as [r d| |] eqn:E.
  - exfalso. exact (Hnever _ _ _ E).
  - contradiction.
  - reflexivity.
Qed.

Lemma op_returns_run this o r :
  returns (fun f => op f this o) 0 r -> exists fuel, run (op fuel this o) = Ret r 0.
Proof. intros [f0 H0]. exists f0. apply H0. lia. Qed.

Lemma five_thirds_returned :
  run (op 200 (value_from 5) (DIV (value_from 3))) = Ret five_thirds 0.
Proof. vm_compute. reflexivity. Qed.

Lemma five_thirds_reachable : reachable five_thirds.
Proof.
  apply (reach_op (value_from 5) (DIV (value_from 3)) 200 five_thirds 0).
  - apply reach_value_from. lia.
  - intros b E. injection E as <-. apply reach_value_from. lia.
  - exact five_thirds_returned.
Qed.

Lemma five_thirds_stuck :
  settled five_thirds /\ deferred five_thirds <> [] /\ 0 < value five_thirds.
Proof.
  split; [apply reachable_settled, five_thirds_reachable|].
  split; cbn; [congruence | lia].
Qed.

Lemma op_never_throws fuel this o d :
  wfN this -> wfOP o -> op fuel this o d <> Thrown.
Proof.
  intros Hthis Ho E.
  pose proof (safe_op fuel (engine_is_safe fuel) this o d Hthis Ho) as Hsafe.
  rewrite E in Hsafe. exact Hsafe.
Qed.

(** The three situations that are no errors, on plain operands: each
    returns a value, with deferred work exactly when something is left
    undone. *)
Lemma SUB_plain_run a b :
  0 <= a -> 0 <= b ->
  exists fuel,
    run (op fuel (value_from a) (SUB (value_from b))) = Ret (SUB_result a b) 0.
Proof. intros Ha Hb. apply op_returns_run, op_SUB_plain; lia. Qed.

Lemma DIV_by_ZERO_plain_run a :
  0 <= a ->
  exists fuel,
    run (op fuel (value_from a) (DIV ZERO)) = Ret (DIV_result 1 0 a ZERO) 0.
Proof.
  intros Ha. apply op_returns_run, op_plain; try lia.
  - unfold DIV_result. destruct (a =? 0); cbn; lia.
  - apply execute_DIV_returns, DIV_loop_stop; cbn; lia.
Qed.

(** [MUL] with a plain zero on either side: the receiver comes back. *)
Lemma MUL_by_ZERO_plain_run a :
  0 <= a ->
  exists fuel, run (op fuel (value_from a) (MUL ZERO)) = Ret (value_from a) 0.
Proof.
  intros Ha. apply op_returns_run, op_plain; cbn; try lia.
  apply execute_MUL_returns, MUL_loop_done. cbn. lia.
Qed.

Lemma MUL_of_ZERO_plain_run b :
  0 <= b ->
  exists fuel, run (op fuel ZERO (MUL (value_from b))) = Ret ZERO 0.
Proof.
  intros Hb. apply op_returns_run.
  assert (E : MUL_result 0 b = ZERO)
    by (unfold MUL_result; destruct (1 <? b); reflexivity).
  pose proof (op_MUL_plain 0 b 0 ltac:(lia) Hb ltac:(lia)) as H.
  rewrite E in H. exact H.
Qed.

(** What holds of [DIV] on plain operands in general: the quotient is the
    integer quotient, the result is plain exactly when the division is
    exact, and otherwise the remainder sits at the bottom of a chain of
    [0[ADD(...)]] wrappers. *)
Lemma op_DIV_plain_run a b :
  0 <= a -> 0 < b ->
  exists fuel,
    run (op fuel (value_from a) (DIV (value_from b))) =
    Ret (DIV_result 1 (a / b) (a mod b) (value_from b)) 0.
Proof.
  intros Ha Hb. apply op_returns_run. apply (op_DIV_plain a b 0); lia.
Qed.

Lemma DIV_quotient_sound a b :
  0 <= a -> 0 < b ->
  exists fuel result,
    run (op fuel (value_from a) (DIV (value_from b))) = Ret result 0 /\
    (deferred result = [] -> value result * b = a) /\
    (deferred result <> [] ->
     value result * b <= a /\
     deferred result =
       [ADD (remainder_chain 8 (a - value result * b) (value_from b))]).
Proof.
  intros Ha Hb. destruct (op_DIV_plain_run a b Ha Hb) as [fuel Hrun].
  exists fuel, (DIV_result 1 (a / b) (a mod b) (value_from b)).
  split; [exact Hrun|].
  pose proof (Z.div_mod a b ltac:(lia)) as Hdm.
  pose proof (Z.mod_pos_bound a b Hb) as Hmod.
  unfold DIV_result. destruct (Z.eqb_spec (a mod b) 0) as [E|E]; cbn.
  - split; [intros _; nia | congruence].
  - split; [congruence | intros _].
    split; [nia|]. replace (a - a / b * b) with (a mod b) by nia. reflexivity.
Qed.

(** C1 (the code departs from the claim at a = 5, b = 3).
    [new N(5n).op(DIV, new N(3n))] returns magnitude 1 with one deferred
    [ADD], and 1 * 3 <= 5; but the value captured by that [ADD] has
    magnitude 0, not the remainder 2 = 5 - 1 * 3: the remainder [2[DIV(3)]]
    lies under nine wrappers [0[ADD(...)]], so the division invariant of the
    specification does not hold of the result. *)
Theorem DIV_captured_remainder_is_wrapped :
  exists fuel result,
    run (op fuel (value_from 5) (DIV (value_from 3))) = Ret result 0 /\
    value result = 1 /\
    deferred result = [ADD (remainder_chain 8 2 (value_from 3))] /\
    oracle_resolve (remainder_chain 8 2 (value_from 3)) 3 = 0 /\
    ~ division_invariant 5 3 result.
Proof.
  exists 200%nat, five_thirds.
  split; [exact five_thirds_returned|].
  split; [reflexivity|]. split; [reflexivity|]. split; [reflexivity|].
  intros [_ H]. destruct H as [_ (c & Hc & Hres)]; [cbn; congruence|].
  cbn in Hc. injection Hc as <-. vm_compute in Hres. discriminate.
Qed.

(** C2 (the code departs from the claim at a = 5, b = 0).
    [new N(5n).op(MUL, ZERO())] returns 5, not zero: the loop of
    [MUL.execute] runs while the counter exceeds 1 and the receiver itself
    is the running total. *)
Theorem MUL_by_ZERO_returns_receiver :
  exists fuel, run (op fuel (value_from 5) (MUL ZERO)) = Ret (value_from 5) 0.
Proof. exists 10%nat. vm_compute. reflexivity. Qed.

(** C3 (the code departs from the claim at 0 - (5 / 3)).
    A subtraction past zero whose operand carries deferred work never
    throws, but it does not return either:
    [new N(0n).op(SUB, new N(5n).op(DIV, new N(3n)))] runs out of any
    amount of fuel, because [b.op(DEC)] only queues the decrement behind the
    deferred [ADD] of [b] and the magnitude of [b] stays 1. *)
Theorem SUB_past_zero_of_deferred_operand_hangs :
  run (op 200 (value_from 5) (DIV (value_from 3))) = Ret five_thirds 0 /\
  forall fuel, run (op fuel (value_from 0) (SUB five_thirds)) = OutOfFuel.
Proof.
  split; [exact five_thirds_returned|].
  destruct five_thirds_stuck as (Hs & Hds & Hpos).
  apply never_returns_out_of_fuel.
  - apply wfN_plain. lia.
  - constructor. apply reachable_wf, five_thirds_reachable.
  - apply op_plain_never_returns; [lia|].
    apply execute_never_returns, SUB_loop_stuck; assumption.
Qed.

(** C4.  Every value reachable through [op] from [new N(x)], [x >= 0], has
    a magnitude that is not negative, and no further [op] on it throws
    ["Negative values are impossible"], whatever the fuel. *)
Theorem magnitude_never_negative n :
  reachable n ->
  0 <= value n /\
  forall fuel o,
    (forall b, operand o = Some b -> reachable b) ->
    run (op fuel n o) <> Thrown.
Proof.
  intros Hn. pose proof (reachable_wf n Hn) as Hwf.
  split; [apply wfN_value; exact Hwf|].
  intros fuel o Hb.
  assert (Ho : wfOP o).
  { destruct o; constructor; apply reachable_wf, Hb; reflexivity. }
  pose proof (safe_op fuel (engine_is_safe fuel) n o 0 Hwf Ho) as Hsafe.
  unfold run. intros E. rewrite E in Hsafe. exact Hsafe.
Qed.

Lemma magnitude_never_negative_witness :
  reachable (mkN 0 [DEC; DEC]) /\
  0 <= value (mkN 0 [DEC; DEC]) /\
  forall fuel o,
    (forall b, operand o = Some b -> reachable b) ->
    run (op fuel (mkN 0 [DEC; DEC]) o) <> Thrown.
Proof.
  assert (H : reachable (mkN 0 [DEC; DEC])).
  { apply (reach_op (value_from 3) (SUB (value_from 5)) 100 _ 0).
    - apply reach_value_from. lia.
    - intros b E. injection E as <-. apply reach_value_from. lia.
    - vm_compute. reflexivity. }
  split; [exact H | apply (magnitude_never_negative (mkN 0 [DEC; DEC]) H)].
Defined.

(** C5 (the code departs from the claim at 1 + (5 / 3)).
    The depth bound stops the recursion, not the loops:
    [new N(1n).op(ADD, new N(5n).op(DIV, new N(3n)))] does not terminate.
    Draining [1[ADD(b)]] with [b] the value of 5 / 3 enters the loop of
    [ADD.execute], where [b.op(DEC)] leaves the magnitude of [b] at 1
    for ever. *)
Theorem draining_can_loop_forever :
  run (op 200 (value_from 5) (DIV (value_from 3))) = Ret five_thirds 0 /\
  (forall fuel, run (op fuel (value_from 1) (ADD five_thirds)) = OutOfFuel) /\
  (forall fuel, run (evaluate fuel (mkN 1 [ADD five_thirds])) = OutOfFuel).
Proof.
  split; [exact five_thirds_returned|].
  destruct five_thirds_stuck as (Hs & Hds & Hpos).
  assert (Hop : forall fuel, run (op fuel (value_from 1) (ADD five_thirds)) = OutOfFuel).
  { apply never_returns_out_of_fuel.
    - apply wfN_plain. lia.
    - constructor. apply reachable_wf, five_thirds_reachable.
    - apply op_plain_never_returns; [lia|].
      apply execute_never_returns, ADD_loop_stuck; assumption. }
  split; [exact Hop|].
  intros fuel. specialize (Hop (S fuel)). unfold run in *.
  rewrite op_S in Hop. exact Hop.
Qed.

(** C6.  [new N(x).op(DEC)]: for [x > 0] the magnitude is [x - 1] and the
    deferred queue is unchanged (empty); for [x = 0] the magnitude stays 0
    and the queue grows by exactly one entry, a [DEC]. *)
Theorem DEC_on_value_from x :
  0 <= x ->
  exists fuel r,
    run (op fuel (value_from x) DEC) = Ret r 0 /\
    (0 < x -> value r = x - 1 /\ deferred r = deferred (value_from x)) /\
    (x = 0 -> value r = 0 /\ deferred r = deferred (value_from x) ++ [DEC]).
Proof.
  intros Hx. destruct (Z.eq_dec x 0) as [->|Hpos].
  - destruct (op_returns_run _ _ _ (op_DEC_zero 0)) as [fuel Hrun].
    exists fuel, (mkN 0 [DEC]). split; [exact Hrun|].
    split; [lia | intros _; split; reflexivity].
  - destruct (op_returns_run _ _ _ (op_DEC_plain x 0 ltac:(lia) ltac:(lia)))
      as [fuel Hrun].
    exists fuel, (mkN (x - 1) []). split; [exact Hrun|].
    split; [intros _; split; reflexivity | lia].
Qed.

Lemma DEC_on_value_from_witness :
  0 <= 0 /\
  exists fuel r,
    run (op fuel (value_from 0) DEC) = Ret r 0 /\
    (0 < 0 -> value r = 0 - 1 /\ deferred r = deferred (value_from 0)) /\
    (0 = 0 -> value r = 0 /\ deferred r = deferred (value_from 0) ++ [DEC]).
Proof. split; [lia | apply (DEC_on_value_from 0); lia]. Defined.

(** C7 (the code departs from the claim).
    [new N(7n).op(DIV, new N(2n)).op(MUL, new N(2n))] returns magnitude 3
    with two deferred operations, not 7 with none: the deferred [ADD] of
    the quotient defers itself again and the [MUL] is queued behind it
    without being tried. *)
Theorem DIV_then_MUL_does_not_cancel :
  exists fuel,
    run (r <- op fuel (value_from 7) (DIV (value_from 2)) ;;
         op fuel r (MUL (value_from 2))) =
    Ret (mkN 3 [ADD (remainder_chain 8 1 (value_from 2)); MUL (value_from 2)]) 0.
Proof. exists 200%nat. vm_compute. reflexivity. Qed.

(** C8 (the code departs from the claim).
    [new N(5n).op(DIV, new N(3n))] returns magnitude 1 with a deferred
    queue of length 1, but its rendering is not the text that the test
    '5 / 3' of main.ts and README.md expect, ["1[ADD(2[DIV(3)])]"] (the
    text of the claim under the names the code gives its operations): the
    operand of the deferred [ADD] renders as the remainder [2[DIV(3)]] under
    nine wrappers [0[ADD(...)]].  Whatever the fuel, a returned value
    renders so. *)
Theorem DIV_5_3_renders_the_remainder_wrapped :
  (exists fuel r,
     run (op fuel (value_from 5) (DIV (value_from 3))) = Ret r 0 /\
     value r = 1 /\
     List.length (deferred r) = 1%nat /\
     toString r =
     "1[ADD(0[ADD(0[ADD(0[ADD(0[ADD(0[ADD(0[ADD(0[ADD(0[ADD(0[ADD(2[DIV(3)])])])])])])])])])])]"%string /\
     toString r <> "1[ADD(2[DIV(3)])]"%string /\
     toString r <> "1[Add(2[Divide(3)])]"%string) /\
  ~ (exists fuel r,
       run (op fuel (value_from 5) (DIV (value_from 3))) = Ret r 0 /\
       toString r = "1[ADD(2[DIV(3)])]"%string).
Proof.
  split.
  - exists 200%nat, five_thirds.
    split; [exact five_thirds_returned|].
    split; [reflexivity|]. split; [reflexivity|]. split; [reflexivity|].
    split; vm_compute; discriminate.
  - intros (fuel & r & Hrun & Hs).
    assert (Hret : returns (fun f => op f (value_from 5) (DIV (value_from 3))) 0
                           five_thirds)
      by (apply (op_DIV_plain 5 3 0); lia).
    destruct (op_returns_unique _ _ _ _ _ _ _ Hret Hrun) as [-> _].
    vm_compute in Hs. discriminate.
Qed.

(** C9.  Draining is a fixed point on every value the public [op] API
    produces: calling [evaluate()] on it any number of times returns a value
    with the same rendering (the same value, in fact). *)
Theorem evaluate_is_stable n k :
  reachable n ->
  exists fuel r,
    run (evaluate_times fuel k n) = Ret r 0 /\
    r = n /\ toString r = toString n.
Proof.
  intros Hn.
  destruct (evaluate_settled n 0 (reachable_settled n Hn)) as [f0 H0].
  exists f0, n. split; [|split; reflexivity].
  unfold run. induction k as [|k IH]; [reflexivity|].
  cbn [evaluate_times]. unfold bind. rewrite H0 by lia. exact IH.
Qed.

Lemma evaluate_is_stable_witness :
  reachable five_thirds /\
  exists fuel r,
    run (evaluate_times fuel 3 five_thirds) = Ret r 0 /\
    r = five_thirds /\ toString r = toString five_thirds.
Proof.
  assert (H : reachable five_thirds).
  { apply (reach_op (value_from 5) (DIV (value_from 3)) 200 five_thirds 0).
    - apply reach_value_from. lia.
    - intros b E. injection E as <-. apply reach_value_from. lia.
    - vm_compute. reflexivity. }
  split; [exact H | apply (evaluate_is_stable five_thirds 3 H)].
Defined.

(** C10.  Multiplying a plain value by [ONE()] is the identity: the result
    has the magnitude of the receiver and no deferred work; and the loop of
    [MUL.execute] returns the running total at once, with no [ADD], whenever
    the magnitude of the counter does not exceed 1 (one unit of fuel is
    enough, which no call to [op] would survive). *)
Theorem MUL_by_ONE_is_identity v :
  0 <= v ->
  (exists fuel, run (op fuel (value_from v) (MUL ONE)) = Ret (value_from v) 0) /\
  (forall f n a c d, value c <= 1 -> MUL_loop (S f) n a c d = Ret a d).
Proof.
  intros Hv. split.
  - apply op_returns_run. apply op_plain; cbn; try lia.
    apply execute_MUL_returns, MUL_loop_done. cbn. lia.
  - intros f n a c d Hc. rewrite MUL_loop_S.
    destruct (Z.ltb_spec 1 (value c)); [lia | reflexivity].
Qed.

Lemma MUL_by_ONE_is_identity_witness :
  0 <= 6 /\
  (exists fuel, run (op fuel (value_from 6) (MUL ONE)) = Ret (value_from 6) 0) /\
  (forall f n a c d, value c <= 1 -> MUL_loop (S f) n a c d = Ret a d).
Proof. split; [lia | apply (MUL_by_ONE_is_identity 6); lia]. Defined.

(** * Further properties of main.ts *)

Lemma op_chain_run this o1 mid o2 r :
  returns (fun f => op f this o1) 0 mid ->
  returns (fun f => op f mid o2) 0 r ->
  exists fuel, run (x <- op fuel this o1 ;; op fuel x o2) = Ret r 0.
Proof.
  intros [f1 H1] [f2 H2]. exists (f1 + f2)%nat.
  unfold run, bind. rewrite H1 by lia. apply H2. lia.
Qed.

(** X1.  [new N(x).op(INC)] returns magnitude [x + 1] with nothing
    deferred: [INC] always resolves. *)
Theorem INC_on_value_from x :
  0 <= x ->
  exists fuel, run (op fuel (value_from x) INC) = Ret (value_from (x + 1)) 0.
Proof. intros Hx. apply op_returns_run, op_INC_plain; lia. Qed.

Lemma INC_on_value_from_witness :
  0 <= 41 /\
  exists fuel, run (op fuel (value_from 41) INC) = Ret (value_from (41 + 1)) 0.
Proof. split; [lia | apply (INC_on_value_from 41); lia]. Defined.

(** X2.  [ADD] of two values without deferred work is addition: the
    result has magnitude [a + b] and nothing deferred. *)
Theorem ADD_of_plain_values a b :
  0 <= a -> 0 <= b ->
  exists fuel,
    run (op fuel (value_from a) (ADD (value_from b))) = Ret (value_from (a + b)) 0.
Proof. intros Ha Hb. apply op_returns_run, op_ADD_plain; lia. Qed.

Lemma ADD_of_plain_values_witness :
  0 <= 10 /\ 0 <= 4 /\
  exists fuel,
    run (op fuel (value_from 10) (ADD (value_from 4))) = Ret (value_from (10 + 4)) 0.
Proof. split; [lia | split; [lia | apply (ADD_of_plain_values 10 4); lia]]. Defined.

(** X3.  [SUB] of two values without deferred work never goes below zero:
    the magnitude of the result is [max 0 (a - b)], and the decrements that
    found the receiver at zero, [b - a] of them when [a < b] and none
    otherwise, are the deferred queue. *)
Theorem SUB_of_plain_values a b :
  0 <= a -> 0 <= b ->
  exists fuel r,
    run (op fuel (value_from a) (SUB (value_from b))) = Ret r 0 /\
    value r = Z.max 0 (a - b) /\
    deferred r = List.repeat DEC (Z.to_nat (b - a)).
Proof.
  intros Ha Hb. destruct (SUB_plain_run a b Ha Hb) as [fuel Hrun].
  exists fuel, (SUB_result a b). split; [exact Hrun|].
  unfold SUB_result. destruct (Z.leb_spec b a); cbn.
  - split; [lia|]. replace (Z.to_nat (b - a)) with 0%nat by lia. reflexivity.
  - split; [lia | reflexivity].
Qed.

Lemma SUB_of_plain_values_witness :
  0 <= 3 /\ 0 <= 5 /\
  exists fuel r,
    run (op fuel (value_from 3) (SUB (value_from 5))) = Ret r 0 /\
    value r = Z.max 0 (3 - 5) /\
    deferred r = List.repeat DEC (Z.to_nat (5 - 3)).
Proof. split; [lia | split; [lia | apply (SUB_of_plain_values 3 5); lia]]. Defined.

(** X4.  [MUL] of two values without deferred work: the product [a * b]
    when [b] is not zero, and the receiver [a] itself when [b] is zero. *)
Theorem MUL_of_plain_values a b :
  0 <= a -> 0 <= b ->
  exists fuel,
    run (op fuel (value_from a) (MUL (value_from b))) =
    Ret (value_from (if b =? 0 then a else a * b)) 0.
Proof.
  intros Ha Hb. apply op_returns_run.
  replace (value_from (if b =? 0 then a else a * b)) with (MUL_result a b).
  - apply op_MUL_plain; lia.
  - unfold MUL_result, value_from.
    destruct (Z.ltb_spec 1 b), (Z.eqb_spec b 0); try lia; try reflexivity.
    f_equal. nia.
Qed.

Lemma MUL_of_plain_values_witness :
  0 <= 10 /\ 0 <= 4 /\
  exists fuel,
    run (op fuel (value_from 10) (MUL (value_from 4))) =
    Ret (value_from (if 4 =? 0 then 10 else 10 * 4)) 0.
Proof. split; [lia | split; [lia | apply (MUL_of_plain_values 10 4); lia]]. Defined.

(** X5.  [DIV] of two values without deferred work, the divisor not zero:
    the magnitude of the result is the integer quotient [a / b]; nothing is
    deferred when [b] divides [a]; otherwise exactly one [ADD] is deferred,
    and the value it captures is the remainder [(a mod b)[DIV(b)]] under
    nine wrappers [0[ADD(...)]]. *)
Theorem DIV_of_plain_values a b :
  0 <= a -> 0 < b ->
  exists fuel r,
    run (op fuel (value_from a) (DIV (value_from b))) = Ret r 0 /\
    value r = a / b /\
    (a mod b = 0 -> deferred r = []) /\
    (a mod b <> 0 ->
     deferred r = [ADD (remainder_chain 8 (a mod b) (value_from b))]).
Proof.
  intros Ha Hb. destruct (op_DIV_plain_run a b Ha Hb) as [fuel Hrun].
  exists fuel, (DIV_result 1 (a / b) (a mod b) (value_from b)).
  split; [exact Hrun|].
  unfold DIV_result. destruct (Z.eqb_spec (a mod b) 0) as [E|E]; cbn.
  - split; [reflexivity | split; [reflexivity | contradiction]].
  - split; [reflexivity | split; [contradiction | reflexivity]].
Qed.

Lemma DIV_of_plain_values_witness :
  0 <= 10 /\ 0 < 4 /\
  exists fuel r,
    run (op fuel (value_from 10) (DIV (value_from 4))) = Ret r 0 /\
    value r = 10 / 4 /\
    (10 mod 4 = 0 -> deferred r = []) /\
    (10 mod 4 <> 0 ->
     deferred r = [ADD (remainder_chain 8 (10 mod 4) (value_from 4))]).
Proof. split; [lia | split; [lia | apply (DIV_of_plain_values 10 4); lia]]. Defined.

(** X6.  A division that cannot take a single step, because the divisor
    has magnitude zero or exceeds the dividend: the quotient is 0 and the
    whole dividend is deferred, whatever deferred work the divisor itself
    carries.  Division by zero is the case [value b = 0]. *)
Theorem DIV_that_cannot_start a b :
  0 < a -> a < value b \/ value b = 0 ->
  exists fuel,
    run (op fuel (value_from a) (DIV b)) =
    Ret (mkN 0 [ADD (remainder_chain 8 a b)]) 0.
Proof.
  intros Ha Hb. apply op_returns_run.
  replace (mkN 0 [ADD (remainder_chain 8 a b)]) with (DIV_result 1 0 a b)
    by (unfold DIV_result; destruct (Z.eqb_spec a 0); [lia | reflexivity]).
  apply op_plain; try lia.
  - unfold DIV_result. destruct (a =? 0); cbn; lia.
  - apply execute_DIV_returns, DIV_loop_stop; lia.
Qed.

Lemma DIV_that_cannot_start_witness :
  0 < 5 /\ (5 < value ZERO \/ value ZERO = 0) /\
  exists fuel,
    run (op fuel (value_from 5) (DIV ZERO)) =
    Ret (mkN 0 [ADD (remainder_chain 8 5 ZERO)]) 0.
Proof.
  split; [lia|]. split; [right; reflexivity|].
  apply (DIV_that_cannot_start 5 ZERO); [lia | right; reflexivity].
Defined.

(** X7.  Zero divided by any operand, a zero or a deferred one included,
    is plain zero: [0 / 0] and [0 / 5] leave nothing deferred. *)
Theorem DIV_of_ZERO b :
  exists fuel, run (op fuel ZERO (DIV b)) = Ret ZERO 0.
Proof.
  apply op_returns_run. apply op_plain; cbn; try lia.
  apply execute_DIV_returns.
  exists 1%nat. intros f Hf. spend f. rewrite DIV_loop_S. cbn [value ZERO].
  replace ((value b <=? 0) && (0 <? value b)) with false; [reflexivity|].
  symmetry. apply andb_false_iff.
  destruct (Z.leb_spec (value b) 0); [right; apply Z.ltb_ge; lia | left; reflexivity].
Qed.

(** X8.  On values as the constructor lets them exist (no negative
    magnitude, at any depth of the captured operands), whatever the deferred
    queue, the depth and the fuel: [evaluate] and [op] do not throw, and
    when they return, the static counter [#evalauateStackDepth] is back at
    its value on entry and the result is such a value again. *)
Theorem depth_counter_is_restored fuel this d :
  wfN this ->
  evaluate fuel this d <> Thrown /\
  (forall r d', evaluate fuel this d = Ret r d' -> d' = d /\ wfN r) /\
  (forall o, wfOP o ->
     op fuel this o d <> Thrown /\
     forall r d', op fuel this o d = Ret r d' -> d' = d /\ wfN r).
Proof.
  intros Hthis.
  pose proof (safe_evaluate fuel (engine_is_safe fuel) this d Hthis) as He.
  split; [intros E; rewrite E in He; exact He|].
  split.
  - intros r d' E. rewrite E in He. destruct He as [Hr ->]. split; [reflexivity | exact Hr].
  - intros o Ho.
    pose proof (safe_op fuel (engine_is_safe fuel) this o d Hthis Ho) as Hop.
    split; [intros E; rewrite E in Hop; exact Hop|].
    intros r d' E. rewrite E in Hop. destruct Hop as [Hr ->].
    split; [reflexivity | exact Hr].
Qed.

Lemma depth_counter_is_restored_witness :
  wfN (mkN 2 [INC; SUB (mkN 5 [DEC])]) /\
  evaluate 50 (mkN 2 [INC; SUB (mkN 5 [DEC])]) 3 <> Thrown /\
  (forall r d', evaluate 50 (mkN 2 [INC; SUB (mkN 5 [DEC])]) 3 = Ret r d' ->
                d' = 3 /\ wfN r) /\
  (forall o, wfOP o ->
     op 50 (mkN 2 [INC; SUB (mkN 5 [DEC])]) o 3 <> Thrown /\
     forall r d', op 50 (mkN 2 [INC; SUB (mkN 5 [DEC])]) o 3 = Ret r d' ->
                  d' = 3 /\ wfN r).
Proof.
  assert (H : wfN (mkN 2 [INC; SUB (mkN 5 [DEC])])).
  { constructor; [lia|]. repeat constructor. lia. }
  split; [exact H | apply (depth_counter_is_restored 50 _ 3 H)].
Defined.

(** X9.  Once a value obtained through [op] carries deferred work, every
    further [op] on it leaves the magnitude and the queue as they are and
    only appends the new operation, untried. *)
Theorem pending_receiver_only_queues n o :
  reachable n -> deferred n <> [] ->
  exists fuel, run (op fuel n o) = Ret (mkN (value n) (deferred n ++ [o])) 0.
Proof.
  intros Hn Hds. apply op_returns_run, op_settled_queues; [|exact Hds].
  apply reachable_settled. exact Hn.
Qed.

Lemma pending_receiver_only_queues_witness :
  reachable (mkN 0 [DEC; DEC]) /\ deferred (mkN 0 [DEC; DEC]) <> [] /\
  exists fuel,
    run (op fuel (mkN 0 [DEC; DEC]) (ADD (value_from 10))) =
    Ret (mkN (value (mkN 0 [DEC; DEC]))
             (deferred (mkN 0 [DEC; DEC]) ++ [ADD (value_from 10)])) 0.
Proof.
  assert (H : reachable (mkN 0 [DEC; DEC])).
  { apply (reach_op (value_from 3) (SUB (value_from 5)) 100 _ 0).
    - apply reach_value_from. lia.
    - intros b E. injection E as <-. apply reach_value_from. lia.
    - vm_compute. reflexivity. }
  assert (H' : deferred (mkN 0 [DEC; DEC]) <> []) by (cbn; congruence).
  split; [exact H|]. split; [exact H'|].
  apply (pending_receiver_only_queues (mkN 0 [DEC; DEC]) (ADD (value_from 10)) H H').
Defined.

Lemma hang_of_never_returns a o :
  0 <= a -> wfOP o ->
  never_returns (fun f => execute f o (mkN a [])) 1 ->
  forall fuel, run (op fuel (value_from a) o) = OutOfFuel.
Proof.
  intros Ha Ho Hex. apply never_returns_out_of_fuel;
    [apply wfN_plain; exact Ha | exact Ho |].
  apply op_plain_never_returns; [lia | exact Hex].
Qed.

(** X10.  [ADD] and [SUB] onto a plain receiver do not return when the
    operand was obtained through [op], carries deferred work and has a
    magnitude above zero: the loop waits for [b.op(DEC)] to lower the
    magnitude of [b], which only queues the [DEC]. *)
Theorem ADD_SUB_of_pending_operand_hang a b :
  0 <= a -> reachable b -> deferred b <> [] -> 0 < value b ->
  forall fuel,
    run (op fuel (value_from a) (ADD b)) = OutOfFuel /\
    run (op fuel (value_from a) (SUB b)) = OutOfFuel.
Proof.
  intros Ha Hb Hds Hpos fuel.
  pose proof (reachable_settled b Hb) as Hs.
  pose proof (reachable_wf b Hb) as Hwf.
  split; apply hang_of_never_returns; try exact Ha; try (constructor; exact Hwf);
    apply execute_never_returns;
    [apply ADD_loop_stuck | apply SUB_loop_stuck]; assumption.
Qed.

Lemma ADD_SUB_of_pending_operand_hang_witness :
  0 <= 4 /\ reachable five_thirds /\ deferred five_thirds <> [] /\
  0 < value five_thirds /\
  forall fuel,
    run (op fuel (value_from 4) (ADD five_thirds)) = OutOfFuel /\
    run (op fuel (value_from 4) (SUB five_thirds)) = OutOfFuel.
Proof.
  assert (H : reachable five_thirds).
  { apply (reach_op (value_from 5) (DIV (value_from 3)) 200 five_thirds 0).
    - apply reach_value_from. lia.
    - intros b E. injection E as <-. apply reach_value_from. lia.
    - vm_compute. reflexivity. }
  assert (Hds : deferred five_thirds <> []) by (cbn; congruence).
  assert (Hpos : 0 < value five_thirds) by (cbn; lia).
  assert (Ha : 0 <= 4) by lia.
  split; [exact Ha|]. split; [exact H|]. split; [exact Hds|]. split; [exact Hpos|].
  apply (ADD_SUB_of_pending_operand_hang 4 five_thirds Ha H Hds Hpos).
Defined.

(** X11.  Likewise [MUL] does not return when its operand was obtained
    through [op], carries deferred work and has a magnitude above one, and
    [DIV] does not return when such a divisor has a magnitude above zero
    that fits into the dividend. *)
Theorem MUL_DIV_of_pending_operand_hang a b :
  0 <= a -> reachable b -> deferred b <> [] ->
  (1 < value b -> forall fuel, run (op fuel (value_from a) (MUL b)) = OutOfFuel) /\
  (0 < value b <= a ->
   forall fuel, run (op fuel (value_from a) (DIV b)) = OutOfFuel).
Proof.
  intros Ha Hb Hds.
  pose proof (reachable_settled b Hb) as Hs.
  pose proof (reachable_wf b Hb) as Hwf.
  split; intros Hv; apply hang_of_never_returns;
    try exact Ha; try (constructor; exact Hwf); apply execute_never_returns.
  - apply MUL_loop_stuck; assumption.
  - apply DIV_loop_stuck; try assumption. lia.
Qed.

Lemma MUL_DIV_of_pending_operand_hang_witness :
  0 <= 4 /\ reachable (DIV_result 1 3 1 (value_from 2)) /\
  deferred (DIV_result 1 3 1 (value_from 2)) <> [] /\
  (1 < value (DIV_result 1 3 1 (value_from 2)) ->
   forall fuel,
     run (op fuel (value_from 4) (MUL (DIV_result 1 3 1 (value_from 2)))) =
     OutOfFuel) /\
  (0 < value (DIV_result 1 3 1 (value_from 2)) <= 4 ->
   forall fuel,
     run (op fuel (value_from 4) (DIV (DIV_result 1 3 1 (value_from 2)))) =
     OutOfFuel).
Proof.
  assert (H : reachable (DIV_result 1 3 1 (value_from 2))).
  { apply (reach_op (value_from 7) (DIV (value_from 2)) 200 _ 0).
    - apply reach_value_from. lia.
    - intros b E. injection E as <-. apply reach_value_from. lia.
    - vm_compute. reflexivity. }
  assert (Hds : deferred (DIV_result 1 3 1 (value_from 2)) <> [])
    by (cbn; congruence).
  assert (Ha : 0 <= 4) by lia.
  split; [exact Ha|]. split; [exact H|]. split; [exact Hds|].
  apply (MUL_DIV_of_pending_operand_hang 4 _ Ha H Hds).
Defined.

(** X12.  [ADD] and [SUB] of an operand that has magnitude zero and
    deferred work of its own change nothing of a plain receiver: both come
    back as the receiver with [ADD(b)] deferred (the replay of [SUB] is an
    [ADD] too). *)
Theorem ADD_SUB_of_zero_pending_operand a b :
  0 <= a -> value b = 0 -> deferred b <> [] ->
  (exists fuel, run (op fuel (value_from a) (ADD b)) = Ret (mkN a [ADD b]) 0) /\
  (exists fuel, run (op fuel (value_from a) (SUB b)) = Ret (mkN a [ADD b]) 0).
Proof.
  intros Ha Hb Hds.
  assert (Hself : self_deferring (ADD b) a) by (apply ADD_self_deferring; assumption).
  split; apply op_returns_run.
  - apply op_plain_self_deferring; assumption.
  - apply op_plain; cbn; try lia.
    apply execute_SUB_returns, SUB_loop_replay; [lia | exact Hds |].
    apply op_plain_self_deferring; assumption.
Qed.

Lemma ADD_SUB_of_zero_pending_operand_witness :
  0 <= 5 /\ value (mkN 0 [DEC]) = 0 /\ deferred (mkN 0 [DEC]) <> [] /\
  (exists fuel,
     run (op fuel (value_from 5) (ADD (mkN 0 [DEC]))) =
     Ret (mkN 5 [ADD (mkN 0 [DEC])]) 0) /\
  (exists fuel,
     run (op fuel (value_from 5) (SUB (mkN 0 [DEC]))) =
     Ret (mkN 5 [ADD (mkN 0 [DEC])]) 0).
Proof.
  assert (Ha : 0 <= 5) by lia.
  assert (Hb : value (mkN 0 [DEC]) = 0) by reflexivity.
  assert (Hds : deferred (mkN 0 [DEC]) <> []) by (cbn; congruence).
  split; [exact Ha|]. split; [exact Hb|]. split; [exact Hds|].
  apply (ADD_SUB_of_zero_pending_operand 5 (mkN 0 [DEC]) Ha Hb Hds).
Defined.

(** X13.  Round trips on values without deferred work: [INC] then [DEC],
    [ADD(b)] then [SUB(b)], and, when [b <= a], [SUB(b)] then [ADD(b)] all
    give the receiver back with nothing deferred. *)
Theorem INC_DEC_ADD_SUB_round_trips a b :
  0 <= a -> 0 <= b ->
  (exists fuel,
     run (x <- op fuel (value_from a) INC ;; op fuel x DEC) = Ret (value_from a) 0) /\
  (exists fuel,
     run (x <- op fuel (value_from a) (ADD (value_from b)) ;;
          op fuel x (SUB (value_from b))) = Ret (value_from a) 0) /\
  (b <= a ->
   exists fuel,
     run (x <- op fuel (value_from a) (SUB (value_from b)) ;;
          op fuel x (ADD (value_from b))) = Ret (value_from a) 0).
Proof.
  intros Ha Hb. split; [|split].
  - apply (op_chain_run _ _ (mkN (a + 1) [])); [apply op_INC_plain; lia|].
    replace (value_from a) with (mkN (a + 1 - 1) [])
      by (unfold value_from; f_equal; lia).
    apply op_DEC_plain; lia.
  - apply (op_chain_run _ _ (mkN (a + b) [])); [apply op_ADD_plain; lia|].
    replace (value_from a) with (SUB_result (a + b) b).
    + apply op_SUB_plain; lia.
    + unfold SUB_result, value_from. destruct (Z.leb_spec b (a + b)); [|lia].
      f_equal. lia.
  - intros Hle.
    apply (op_chain_run _ _ (mkN (a - b) [])).
    + replace (mkN (a - b) []) with (SUB_result a b).
      * apply op_SUB_plain; lia.
      * unfold SUB_result. destruct (Z.leb_spec b a); [reflexivity | lia].
    + replace (value_from a) with (mkN (a - b + b) [])
        by (unfold value_from; f_equal; lia).
      apply op_ADD_plain; lia.
Qed.

Lemma INC_DEC_ADD_SUB_round_trips_witness :
  0 <= 5 /\ 0 <= 3 /\
  (exists fuel,
     run (x <- op fuel (value_from 5) INC ;; op fuel x DEC) = Ret (value_from 5) 0) /\
  (exists fuel,
     run (x <- op fuel (value_from 5) (ADD (value_from 3)) ;;
          op fuel x (SUB (value_from 3))) = Ret (value_from 5) 0) /\
  (3 <= 5 ->
   exists fuel,
     run (x <- op fuel (value_from 5) (SUB (value_from 3)) ;;
          op fuel x (ADD (value_from 3))) = Ret (value_from 5) 0).
Proof. split; [lia | split; [lia | apply (INC_DEC_ADD_SUB_round_trips 5 3); lia]]. Defined.

(** X14.  [MUL(b)] then [DIV(b)] on values without deferred work, [b] not
    zero, gives the receiver back with nothing deferred. *)
Theorem MUL_DIV_round_trip a b :
  0 <= a -> 0 < b ->
  exists fuel,
    run (x <- op fuel (value_from a) (MUL (value_from b)) ;;
         op fuel x (DIV (value_from b))) = Ret (value_from a) 0.
Proof.
  intros Ha Hb.
  apply (op_chain_run _ _ (mkN (a * b) [])).
  - replace (mkN (a * b) []) with (MUL_result a b).
    + apply op_MUL_plain; lia.
    + unfold MUL_result. destruct (Z.ltb_spec 1 b); [reflexivity|].
      f_equal. nia.
  - replace (value_from a)
      with (DIV_result (0 + 1) (a * b / b) ((a * b) mod b) (mkN b [])).
    + apply op_DIV_plain; nia.
    + rewrite Z.div_mul, Z.mod_mul by lia. reflexivity.
Qed.

Lemma MUL_DIV_round_trip_witness :
  0 <= 7 /\ 0 < 2 /\
  exists fuel,
    run (x <- op fuel (value_from 7) (MUL (value_from 2)) ;;
         op fuel x (DIV (value_from 2))) = Ret (value_from 7) 0.
Proof. split; [lia | split; [lia | apply (MUL_DIV_round_trip 7 2); lia]]. Defined.

(** X15.  A subtraction past zero is not undone by what follows: for
    [a < b], [new N(a).op(SUB, new N(b))] followed by any operation [o]
    keeps the magnitude 0 and the [b - a] deferred decrements, with [o]
    queued behind them. *)
Theorem SUB_past_zero_then_any a b o :
  0 <= a -> a < b ->
  exists fuel,
    run (x <- op fuel (value_from a) (SUB (value_from b)) ;; op fuel x o) =
    Ret (mkN 0 (List.repeat DEC (Z.to_nat (b - a)) ++ [o])) 0.
Proof.
  intros Ha Hlt.
  assert (E : SUB_result a b = mkN 0 (List.repeat DEC (Z.to_nat (b - a))))
    by (unfold SUB_result; destruct (Z.leb_spec b a); [lia | reflexivity]).
  apply (op_chain_run _ _ (SUB_result a b)); [apply op_SUB_plain; lia|].
  rewrite E.
  apply (op_settled_queues (mkN 0 (List.repeat DEC (Z.to_nat (b - a))))).
  - rewrite <- E. apply SUB_result_settled. exact Ha.
  - cbn. destruct (Z.to_nat (b - a)) eqn:Hk; [lia | cbn; congruence].
Qed.

Lemma SUB_past_zero_then_any_witness :
  0 <= 3 /\ 3 < 5 /\
  exists fuel,
    run (x <- op fuel (value_from 3) (SUB (value_from 5)) ;;
         op fuel x (ADD (value_from 10))) =
    Ret (mkN 0 (List.repeat DEC (Z.to_nat (5 - 3)) ++ [ADD (value_from 10)])) 0.
Proof.
  split; [lia | split; [lia | apply (SUB_past_zero_then_any 3 5); lia]].
Defined.

Lemma execute_fuel_le f f' o n d :
  (f <= f')%nat -> refines (execute f o n d) (execute f' o n d).
Proof.
  induction 1 as [|f' _ IH]; [apply refines_refl|].
  eapply refines_trans; [exact IH | apply (mono_execute _ (engine_is_mono f'))].
Qed.

Lemma length_zero_nil (ds : list OP) :
  (0 <? List.length ds)%nat = false -> ds = [].
Proof. destruct ds; [reflexivity | discriminate]. Qed.

(** The loop of [evaluate] on a queue with one more operation at its end,
    when the shorter queue stops on deferred work: the same steps, and the
    new operation ends up last. *)
Lemma evaluate_loop_append_deferred o f : forall c ops d r d',
  evaluate_loop f c ops d = Ret r d' ->
  deferred c = [] -> deferred r <> [] ->
  evaluate_loop f c (ops ++ [o]) d = Ret (mkN (value r) (deferred r ++ [o])) d'.
Proof.
  induction f as [|f IH]; intros c ops d r d' Hrun Hc Hr.
  - destruct fuel_O as (_ & E & _). rewrite E in Hrun. discriminate.
  - destruct ops as [|h t].
    + rewrite evaluate_loop_nil in Hrun. injection Hrun as <- <-. contradiction.
    + cbn [app]. rewrite evaluate_loop_cons in *.
      destruct (execute f h c d) as [c' d''| |]; cbn [and_then] in *;
        try discriminate.
      destruct (0 <? List.length (deferred c'))%nat eqn:E.
      * rewrite new_N_eq in *. destruct (value c' <? 0); [discriminate|].
        injection Hrun as <- <-. cbn [value deferred].
        rewrite app_assoc. reflexivity.
      * apply IH; [exact Hrun | apply length_zero_nil; exact E | exact Hr].
Qed.

(** The same when the shorter queue is drained to the end: the loop goes on
    with the new operation on what the shorter queue left. *)
Lemma evaluate_loop_append_plain o f : forall c ops d r d' g r' d2,
  evaluate_loop f c ops d = Ret r d' ->
  deferred c = [] -> deferred r = [] ->
  (forall k, (g <= k)%nat -> evaluate_loop (S k) r [o] (d' + 1) = Ret r' d2) ->
  forall k, (f + g <= k)%nat -> evaluate_loop k c (ops ++ [o]) d = Ret r' d2.
Proof.
  induction f as [|f IH]; intros c ops d r d' g r' d2 Hrun Hc Hr Hnext k Hk.
  - destruct fuel_O as (_ & E & _). rewrite E in Hrun. discriminate.
  - destruct k as [|k]; [lia|]. destruct ops as [|h t].
    + rewrite evaluate_loop_nil in Hrun. injection Hrun as <- <-. cbn [app].
      replace d with (d - 1 + 1) at 1 by lia. apply Hnext. lia.
    + cbn [app]. rewrite evaluate_loop_cons in *.
      destruct (execute f h c d) as [c' d''| |] eqn:Eh; cbn [and_then] in Hrun;
        try discriminate.
      rewrite (refines_Ret _ _ _ _ (execute_fuel_le f k h c d ltac:(lia)) Eh).
      cbn [and_then].
      destruct (0 <? List.length (deferred c'))%nat eqn:E.
      * exfalso. rewrite new_N_eq in Hrun.
        destruct (value c' <? 0); [discriminate|].
        injection Hrun as <- <-. cbn [deferred] in Hr.
        destruct (deferred c'); [discriminate E | discriminate Hr].
      * apply (IH c' t d'' r d' g); try assumption; [|lia].
        apply length_zero_nil. exact E.
Qed.

(** X16.  Draining is incremental.  Let [new N(v, ops).evaluate()] return
    [r].  If [r] carries deferred work, draining the queue with one more
    operation [o] at its end returns [r] with [o] appended, untried.  If [r]
    is plain, draining the longer queue returns what [r.op(o)] returns. *)
Theorem draining_is_incremental v ops o r fuel :
  run (evaluate fuel (mkN v ops)) = Ret r 0 ->
  (deferred r <> [] ->
   run (evaluate fuel (mkN v (ops ++ [o]))) =
   Ret (mkN (value r) (deferred r ++ [o])) 0) /\
  (deferred r = [] ->
   forall fuel' r',
     run (op fuel' r o) = Ret r' 0 ->
     exists fuel'', run (evaluate fuel'' (mkN v (ops ++ [o]))) = Ret r' 0).
Proof.
  unfold run. intros Hrun.
  destruct fuel as [|f1];
    [destruct fuel_O as (E & _); rewrite E in Hrun; discriminate|].
  rewrite evaluate_S in Hrun. cbn [Z.add Z.ltb Z.compare Pos.compare
    Pos.compare_cont value deferred] in Hrun.
  rewrite new_N_eq in Hrun. destruct (v <? 0) eqn:Hv; [discriminate|].
  cbn [and_then] in Hrun.
  split.
  - intros Hr. rewrite evaluate_S.
    cbn [Z.add Z.ltb Z.compare Pos.compare Pos.compare_cont value deferred].
    rewrite new_N_eq, Hv. cbn [and_then].
    apply evaluate_loop_append_deferred; [exact Hrun | reflexivity | exact Hr].
  - intros Hr fuel' r' Hop.
    destruct r as [vr dr]. cbn [deferred] in Hr. subst dr.
    assert (Hvr : (vr <? 0) = false).
    { destruct fuel' as [|f2];
        [destruct fuel_O as (_ & _ & E & _); rewrite E in Hop; discriminate|].
      rewrite op_S, new_N_eq in Hop. cbn [value] in Hop.
      destruct (vr <? 0); [discriminate | reflexivity]. }
    assert (Hnext : forall k, (fuel' <= k)%nat ->
              evaluate_loop (S k) (mkN vr []) [o] (0 + 1) = Ret r' 0).
    { intros k Hk.
      pose proof (refines_Ret _ _ _ _
        (op_fuel_le fuel' (S (S (S k))) (mkN vr []) o 0 ltac:(lia)) Hop) as H.
      rewrite op_S, new_N_eq in H. cbn [value deferred app] in H.
      rewrite Hvr in H. cbn [and_then] in H.
      rewrite evaluate_S in H.
      cbn [Z.add Z.ltb Z.compare Pos.compare Pos.compare_cont value deferred] in H.
      rewrite new_N_eq, Hvr in H. exact H. }
    exists (S (f1 + fuel')). rewrite evaluate_S.
    cbn [Z.add Z.ltb Z.compare Pos.compare Pos.compare_cont value deferred].
    rewrite new_N_eq, Hv. cbn [and_then].
    apply (evaluate_loop_append_plain o f1 (mkN v []) ops 1 (mkN vr []) 0 fuel');
      try reflexivity; try assumption; lia.
Qed.

Lemma draining_is_incremental_witness :
  run (evaluate 50 (mkN 3 [SUB (value_from 5)])) = Ret (mkN 0 [DEC; DEC]) 0 /\
  (deferred (mkN 0 [DEC; DEC]) <> [] ->
   run (evaluate 50 (mkN 3 ([SUB (value_from 5)] ++ [INC]))) =
   Ret (mkN (value (mkN 0 [DEC; DEC])) (deferred (mkN 0 [DEC; DEC]) ++ [INC])) 0) /\
  (deferred (mkN 0 [DEC; DEC]) = [] ->
   forall fuel' r',
     run (op fuel' (mkN 0 [DEC; DEC]) INC) = Ret r' 0 ->
     exists fuel'',
       run (evaluate fuel'' (mkN 3 ([SUB (value_from 5)] ++ [INC]))) = Ret r' 0).
Proof.
  assert (H : run (evaluate 50 (mkN 3 [SUB (value_from 5)])) =
              Ret (mkN 0 [DEC; DEC]) 0) by (vm_compute; reflexivity).
  split; [exact H|].
  apply (draining_is_incremental 3 [SUB (value_from 5)] INC (mkN 0 [DEC; DEC]) 50 H).
Defined.

(** * The earlier engine of src/unnamed/part_000 (lines 142-325)

    The same classes [N] and [OP], the same constructor and rendering.
    There is no [evaluate]: [op] guards its own depth with the static
    counter [#opStackDepth] and applies the operation to the receiver at
    once, deferred queue included; [ADD.execute] has two shortcuts for a
    zero on either side, and [MUL.execute] accumulates from [ZERO()] while
    the counter is above zero. *)
Module Earlier.

Fixpoint op (fuel : nat) (this : N) (operation : OP) {struct fuel} : M N :=
  match fuel with
  | O => out_of_fuel
  | S fuel =>
      incr_depth ;;
      d <- get_depth ;;
      if 10 <? d then
        decr_depth ;;
        new_N (value this) (deferred this ++ [operation])%list
      else
        result <- execute fuel operation this ;;
        decr_depth ;;
        ret result
  end

with execute (fuel : nat) (o : OP) (n : N) {struct fuel} : M N :=
  match fuel with
  | O => out_of_fuel
  | S fuel =>
      match o with
      | INC => new_N (value n + 1) (deferred n)
      | DEC =>
          if value n =? 0 then op fuel n DEC
          else new_N (value n - 1) (deferred n)
      | ADD b =>
          if value n =? 0 then new_N (value b) (deferred n ++ deferred b)%list
          else if value b =? 0 then new_N (value n) (deferred n ++ deferred b)%list
          else ADD_loop fuel n b
      | SUB b => SUB_loop fuel n b
      | MUL b => MUL_loop fuel n ZERO b
      | DIV b => DIV_loop fuel b ZERO n
      end
  end

(** the loop of [ADD.execute] and what follows it *)
with ADD_loop (fuel : nat) (a b : N) {struct fuel} : M N :=
  match fuel with
  | O => out_of_fuel
  | S fuel =>
      if 0 <? value b then
        a <- op fuel a INC ;;
        b <- op fuel b DEC ;;
        ADD_loop fuel a b
      else if (0 <? List.length (deferred b))%nat then op fuel a (ADD b)
      else ret a
  end

(** [SUB.execute] *)
with SUB_loop (fuel : nat) (a b : N) {struct fuel} : M N :=
  match fuel with
  | O => out_of_fuel
  | S fuel =>
      if 0 <? value b then
        a <- op fuel a DEC ;;
        b <- op fuel b DEC ;;
        SUB_loop fuel a b
      else if (0 <? List.length (deferred b))%nat then op fuel a (ADD b)
      else ret a
  end

(** [MUL.execute]: [a] is the receiver, [total] starts as [ZERO()],
    [counter] as the captured operand *)
with MUL_loop (fuel : nat) (a total counter : N) {struct fuel} : M N :=
  match fuel with
  | O => out_of_fuel
  | S fuel =>
      if 0 <? value counter then
        total <- op fuel total (ADD a) ;;
        counter <- op fuel counter DEC ;;
        MUL_loop fuel a total counter
      else ret total
  end

(** [DIV.execute] *)
with DIV_loop (fuel : nat) (b quotient remainder : N) {struct fuel} : M N :=
  match fuel with
  | O => out_of_fuel
  | S fuel =>
      if (value b <=? value remainder) && (0 <? value b) then
        remainder <- op fuel remainder (SUB b) ;;
        quotient <- op fuel quotient INC ;;
        DIV_loop fuel b quotient remainder
      else if value remainder =? 0 then ret quotient
      else
        r <- op fuel remainder (DIV b) ;;
        op fuel quotient (ADD r)
  end.

(** The deferred queue of a product: the queue of the receiver, once for
    every unit of the operand. *)
Definition repeated_queue (ds : list OP) (n : nat) : list OP :=
  List.concat (List.repeat ds n).

(** ** One step of each function *)

Lemma op_step f this operation d :
  op (S f) this operation d =
  if 10 <? d + 1 then new_N (value this) (deferred this ++ [operation]) d
  else and_then (execute f operation this (d + 1))
         (fun result d' => Ret result (d' - 1)).
Proof.
  cbn [op]. unfold bind, incr_depth, get_depth, decr_depth, ret.
  destruct (10 <? d + 1).
  - replace (d + 1 - 1) with d by lia. reflexivity.
  - unfold and_then. destruct (execute f operation this (d + 1)); reflexivity.
Qed.

Lemma execute_step f o n d :
  execute (S f) o n d =
  match o with
  | INC => new_N (value n + 1) (deferred n) d
  | DEC =>
      if value n =? 0 then op f n DEC d
      else new_N (value n - 1) (deferred n) d
  | ADD b =>
      if value n =? 0 then new_N (value b) (deferred n ++ deferred b) d
      else if value b =? 0 then new_N (value n) (deferred n ++ deferred b) d
      else ADD_loop f n b d
  | SUB b => SUB_loop f n b d
  | MUL b => MUL_loop f n ZERO b d
  | DIV b => DIV_loop f b ZERO n d
  end.
Proof.
  cbn [execute]. destruct o; try reflexivity.
  - destruct (value n =? 0); reflexivity.
  - destruct (value n =? 0); [reflexivity|].
    destruct (value b =? 0); reflexivity.
Qed.

Lemma ADD_loop_unfold f a b d :
  ADD_loop (S f) a b d =
  if 0 <? value b then
    and_then (op f a INC d) (fun a' d1 =>
    and_then (op f b DEC d1) (fun b' d2 => ADD_loop f a' b' d2))
  else if (0 <? List.length (deferred b))%nat then op f a (ADD b) d
  else Ret a d.
Proof.
  cbn [ADD_loop].
  destruct (0 <? value b); [reflexivity|].
  destruct (0 <? List.length (deferred b))%nat; reflexivity.
Qed.

Lemma SUB_loop_unfold f a b d :
  SUB_loop (S f) a b d =
  if 0 <? value b then
    and_then (op f a DEC d) (fun a' d1 =>
    and_then (op f b DEC d1) (fun b' d2 => SUB_loop f a' b' d2))
  else if (0 <? List.length (deferred b))%nat then op f a (ADD b) d
  else Ret a d.
Proof.
  cbn [SUB_loop].
  destruct (0 <? value b); [reflexivity|].
  destruct (0 <? List.length (deferred b))%nat; reflexivity.
Qed.

Lemma MUL_loop_unfold f a total counter d :
  MUL_loop (S f) a total counter d =
  if 0 <? value counter then
    and_then (op f total (ADD a) d) (fun t' d1 =>
    and_then (op f counter DEC d1) (fun c' d2 => MUL_loop f a t' c' d2))
  else Ret total d.
Proof.
  cbn [MUL_loop]. destruct (0 <? value counter); reflexivity.
Qed.

Lemma DIV_loop_unfold f b quotient remainder d :
  DIV_loop (S f) b quotient remainder d =
  if (value b <=? value remainder) && (0 <? value b) then
    and_then (op f remainder (SUB b) d) (fun r' d1 =>
    and_then (op f quotient INC d1) (fun q' d2 => DIV_loop f b q' r' d2))
  else if value remainder =? 0 then Ret quotient d
  else
    and_then (op f remainder (DIV b) d) (fun r d1 => op f quotient (ADD r) d1).
Proof.
  cbn [DIV_loop].
  destruct ((value b <=? value remainder) && (0 <? value b)); [reflexivity|].
  destruct (value remainder =? 0); reflexivity.
Qed.

Global Opaque op execute ADD_loop SUB_loop MUL_loop DIV_loop.

(** ** [op] within and past the depth bound *)

Lemma op_within this o d r :
  d < 10 ->
  returns (fun f => execute f o this) (d + 1) r ->
  returns (fun f => op f this o) d r.
Proof.
  intros Hd [f0 H0]. exists (S f0). intros f Hf. spend f.
  rewrite op_step. destruct (Z.ltb_spec 10 (d + 1)); [lia|].
  rewrite H0 by lia. cbn [and_then]. f_equal. lia.
Qed.

Lemma op_beyond this o d :
  10 <= d -> 0 <= value this ->
  returns (fun f => op f this o) d (mkN (value this) (deferred this ++ [o])).
Proof.
  intros Hd Hv. exists 1%nat. intros f Hf. spend f.
  rewrite op_step. destruct (Z.ltb_spec 10 (d + 1)); [|lia].
  apply new_N_ok. exact Hv.
Qed.

(** ** The primitives *)

Lemma op_INC v ds d :
  0 <= v -> d < 10 ->
  returns (fun f => op f (mkN v ds) INC) d (mkN (v + 1) ds).
Proof.
  intros Hv Hd. apply op_within; [exact Hd|].
  exists 1%nat. intros f Hf. spend f. rewrite execute_step. cbn [value deferred].
  apply new_N_ok. lia.
Qed.

Lemma op_DEC_positive v ds d :
  0 < v -> d < 10 ->
  returns (fun f => op f (mkN v ds) DEC) d (mkN (v - 1) ds).
Proof.
  intros Hv Hd. apply op_within; [exact Hd|].
  exists 1%nat. intros f Hf. spend f. rewrite execute_step. cbn [value deferred].
  destruct (Z.eqb_spec v 0); [lia|]. apply new_N_ok. lia.
Qed.

Lemma op_DEC_at_zero ds d :
  returns (fun f => op f (mkN 0 ds) DEC) d (mkN 0 (ds ++ [DEC])).
Proof.
  assert (H : forall n d, 10 - d <= Z.of_nat n ->
            returns (fun f => op f (mkN 0 ds) DEC) d (mkN 0 (ds ++ [DEC]))).
  { induction n as [|n IH]; intros e He.
    - apply (op_beyond (mkN 0 ds) DEC); cbn; lia.
    - destruct (Z_le_gt_dec 10 e) as [Hge|Hlt].
      + apply (op_beyond (mkN 0 ds) DEC); cbn; lia.
      + apply op_within; [lia|].
        destruct (IH (e + 1)) as [f0 H0]; [lia|].
        exists (S f0). intros f Hf. spend f.
        rewrite execute_step. cbn [value Z.eqb]. apply H0. lia. }
  apply (H (Z.to_nat (10 - d))). lia.
Qed.

(** ** [ADD]: magnitudes add, queues concatenate *)

Lemma execute_ADD_zero_side a b d :
  0 <= value a -> 0 <= value b -> value a = 0 \/ value b = 0 ->
  returns (fun f => execute f (ADD b) a) d
          (mkN (value a + value b) (deferred a ++ deferred b)).
Proof.
  intros Ha Hb Hzero. exists 1%nat. intros f Hf. spend f.
  rewrite execute_step.
  destruct (Z.eqb_spec (value a) 0) as [Ea|Ea].
  - rewrite new_N_ok by exact Hb. do 2 f_equal. lia.
  - destruct (Z.eqb_spec (value b) 0) as [Eb|Eb]; [|lia].
    rewrite new_N_ok by exact Ha. do 2 f_equal. lia.
Qed.

Lemma ADD_loop_sum n : forall va da vb db d,
  vb = Z.of_nat n -> 0 <= va -> d < 9 ->
  returns (fun f => ADD_loop f (mkN va da) (mkN vb db)) d
          (mkN (va + vb) (da ++ db)).
Proof.
  induction n as [|n IH]; intros va da vb db d Hvb Hva Hd.
  - destruct db as [|o db].
    + exists 1%nat. intros f Hf. spend f. rewrite ADD_loop_unfold.
      cbn [value deferred]. destruct (Z.ltb_spec 0 vb); [lia|].
      cbn [List.length Nat.ltb Nat.leb]. rewrite app_nil_r. do 2 f_equal. lia.
    + destruct (op_within (mkN va da) (ADD (mkN vb (o :: db))) d
                  (mkN (va + vb) (da ++ o :: db))) as [f0 H0]; [lia| |].
      { apply (execute_ADD_zero_side (mkN va da) (mkN vb (o :: db))); cbn; lia. }
      exists (S f0). intros f Hf. spend f. rewrite ADD_loop_unfold.
      cbn [value deferred]. destruct (Z.ltb_spec 0 vb); [lia|].
      cbn [List.length Nat.ltb Nat.leb]. apply H0. lia.
  - destruct (op_INC va da d Hva ltac:(lia)) as [f1 H1].
    destruct (op_DEC_positive vb db d ltac:(lia) ltac:(lia)) as [f2 H2].
    destruct (IH (va + 1) da (vb - 1) db d ltac:(lia) ltac:(lia) Hd) as [f3 H3].
    exists (S (f1 + f2 + f3)). intros f Hf. spend f. rewrite ADD_loop_unfold.
    cbn [value]. destruct (Z.ltb_spec 0 vb); [|lia].
    rewrite H1 by lia. cbn [and_then]. rewrite H2 by lia. cbn [and_then].
    rewrite H3 by lia. do 2 f_equal. lia.
Qed.

Lemma op_ADD_sum a b d :
  0 <= value a -> 0 <= value b -> d < 8 ->
  returns (fun f => op f a (ADD b)) d
          (mkN (value a + value b) (deferred a ++ deferred b)).
Proof.
  intros Ha Hb Hd. apply op_within; [lia|].
  destruct (Z.eq_dec (value a) 0) as [Ea|Ea];
    [apply execute_ADD_zero_side; auto|].
  destruct (Z.eq_dec (value b) 0) as [Eb|Eb];
    [apply execute_ADD_zero_side; auto|].
  destruct a as [va da], b as [vb db]. cbn [value deferred] in *.
  destruct (ADD_loop_sum (Z.to_nat vb) va da vb db (d + 1)) as [f0 H0]; try lia.
  exists (S f0). intros f Hf. spend f. rewrite execute_step. cbn [value].
  destruct (Z.eqb_spec va 0); [lia|]. destruct (Z.eqb_spec vb 0); [lia|].
  apply H0. lia.
Qed.

(** ** [SUB]: the magnitude stops at zero, the debt is queued *)

Lemma repeat_DEC_succ k : List.repeat DEC (S k) = DEC :: List.repeat DEC k.
Proof. reflexivity. Qed.

Lemma SUB_loop_debt n : forall x dx vb db d,
  vb = Z.of_nat n -> 0 <= x -> d < 8 ->
  returns (fun f => SUB_loop f (mkN x dx) (mkN vb db)) d
          (mkN (Z.max 0 (x - vb))
               (dx ++ List.repeat DEC (Z.to_nat (vb - x)) ++ db)).
Proof.
  induction n as [|n IH]; intros x dx vb db d Hvb Hx Hd.
  - replace (Z.to_nat (vb - x)) with 0%nat by lia.
    replace (Z.max 0 (x - vb)) with (x + vb) by lia. cbn [List.repeat app].
    destruct db as [|o db].
    + exists 1%nat. intros f Hf. spend f. rewrite SUB_loop_unfold.
      cbn [value deferred]. destruct (Z.ltb_spec 0 vb); [lia|].
      cbn [List.length Nat.ltb Nat.leb]. rewrite app_nil_r. do 2 f_equal. lia.
    + destruct (op_ADD_sum (mkN x dx) (mkN vb (o :: db)) d) as [f0 H0];
        cbn; try lia.
      exists (S f0). intros f Hf. spend f. rewrite SUB_loop_unfold.
      cbn [value deferred]. destruct (Z.ltb_spec 0 vb); [lia|].
      cbn [List.length Nat.ltb Nat.leb]. apply H0. lia.
  - destruct (op_DEC_positive vb db d ltac:(lia) ltac:(lia)) as [f2 H2].
    destruct (Z.eq_dec x 0) as [->|Hpos].
    + destruct (op_DEC_at_zero dx d) as [f1 H1].
      destruct (IH 0 (dx ++ [DEC]) (vb - 1) db d ltac:(lia) ltac:(lia) Hd)
        as [f3 H3].
      exists (S (f1 + f2 + f3)). intros f Hf. spend f. rewrite SUB_loop_unfold.
      cbn [value]. destruct (Z.ltb_spec 0 vb); [|lia].
      rewrite H1 by lia. cbn [and_then]. rewrite H2 by lia. cbn [and_then].
      rewrite H3 by lia. f_equal. f_equal; [lia|].
      replace (Z.to_nat (vb - 0)) with (S (Z.to_nat (vb - 1 - 0))) by lia.
      rewrite repeat_DEC_succ, <- app_assoc. reflexivity.
    + destruct (op_DEC_positive x dx d ltac:(lia) ltac:(lia)) as [f1 H1].
      destruct (IH (x - 1) dx (vb - 1) db d ltac:(lia) ltac:(lia) Hd)
        as [f3 H3].
      exists (S (f1 + f2 + f3)). intros f Hf. spend f. rewrite SUB_loop_unfold.
      cbn [value]. destruct (Z.ltb_spec 0 vb); [|lia].
      rewrite H1 by lia. cbn [and_then]. rewrite H2 by lia. cbn [and_then].
      rewrite H3 by lia. f_equal. f_equal; [lia|].
      replace (vb - 1 - (x - 1)) with (vb - x) by lia. reflexivity.
Qed.

Lemma op_SUB_debt a b d :
  0 <= value a -> 0 <= value b -> d < 7 ->
  returns (fun f => op f a (SUB b)) d
          (mkN (Z.max 0 (value a - value b))
               (deferred a ++ List.repeat DEC (Z.to_nat (value b - value a))
                ++ deferred b)).
Proof.
  intros Ha Hb Hd. apply op_within; [lia|].
  destruct a as [va da], b as [vb db]. cbn [value deferred] in *.
  destruct (SUB_loop_debt (Z.to_nat vb) va da vb db (d + 1)) as [f0 H0]; try lia.
  exists (S f0). intros f Hf. spend f. rewrite execute_step. apply H0. lia.
Qed.

(** ** [MUL]: repeated [ADD] onto [ZERO()] *)

Lemma MUL_loop_product n : forall a t dt c dc d,
  c = Z.of_nat n -> 0 <= value a -> 0 <= t -> d < 8 ->
  returns (fun f => MUL_loop f a (mkN t dt) (mkN c dc)) d
          (mkN (t + value a * c) (dt ++ repeated_queue (deferred a) n)).
Proof.
  induction n as [|n IH]; intros a t dt c dc d Hc Ha Ht Hd.
  - exists 1%nat. intros f Hf. spend f. rewrite MUL_loop_unfold. cbn [value].
    destruct (Z.ltb_spec 0 c); [lia|].
    unfold repeated_queue. cbn [List.repeat List.concat].
    rewrite app_nil_r. do 2 f_equal. lia.
  - destruct (op_ADD_sum (mkN t dt) a d Ht Ha Hd) as [f1 H1].
    destruct (op_DEC_positive c dc d ltac:(lia) ltac:(lia)) as [f2 H2].
    cbn [value deferred] in H1.
    destruct (IH a (t + value a) (dt ++ deferred a) (c - 1) dc d
                ltac:(lia) Ha ltac:(lia) Hd) as [f3 H3].
    exists (S (f1 + f2 + f3)). intros f Hf. spend f. rewrite MUL_loop_unfold.
    cbn [value]. destruct (Z.ltb_spec 0 c); [|lia].
    rewrite H1 by lia. cbn [and_then]. rewrite H2 by lia. cbn [and_then].
    rewrite H3 by lia. f_equal. f_equal; [lia|].
    unfold repeated_queue. cbn [List.repeat List.concat].
    rewrite <- app_assoc. reflexivity.
Qed.

Lemma op_MUL_product a b d :
  0 <= value a -> 0 <= value b -> d < 7 ->
  returns (fun f => op f a (MUL b)) d
          (mkN (value a * value b)
               (repeated_queue (deferred a) (Z.to_nat (value b)))).
Proof.
  intros Ha Hb Hd. apply op_within; [lia|].
  destruct b as [vb db]. cbn [value deferred] in *.
  destruct (MUL_loop_product (Z.to_nat vb) a 0 [] vb db (d + 1)) as [f0 H0];
    try lia.
  exists (S f0). intros f Hf. spend f. rewrite execute_step. apply H0. lia.
Qed.

(** ** [DIV] *)

(** The remainder as [DIV.execute] defers it: the remainder itself with
    [DIV(b)] appended to its queue, captured by one [ADD]. *)
Definition deferred_remainder (r b : N) : N :=
  mkN 0 [ADD (mkN (value r) (deferred r ++ [DIV b]))].

Lemma execute_DIV_remainder r b d :
  0 < value r -> value r < value b \/ value b <= 0 ->
  returns (fun f => execute f (DIV b) r) d (deferred_remainder r b).
Proof.
  intros Hr Hstop.
  assert (Hcond : (value b <=? value r) && (0 <? value b) = false).
  { apply andb_false_iff.
    destruct Hstop; [left; apply Z.leb_gt | right; apply Z.ltb_ge]; lia. }
  assert (H : forall n e, 10 - e <= Z.of_nat n ->
            returns (fun f => execute f (DIV b) r) e (deferred_remainder r b)).
  { induction n as [|n IH]; intros e He.
    - destruct (op_beyond r (DIV b) e) as [f1 H1]; try lia.
      destruct (op_beyond ZERO (ADD (mkN (value r) (deferred r ++ [DIV b]))) e)
        as [f2 H2]; cbn; try lia.
      exists (S (S (f1 + f2))). intros f Hf. spend f. rewrite execute_step.
      spend f. rewrite DIV_loop_unfold, Hcond.
      destruct (Z.eqb_spec (value r) 0); [lia|].
      rewrite H1 by lia. cbn [and_then]. apply H2. lia.
    - destruct (Z_le_gt_dec 10 e) as [Hge|Hlt]; [apply IH; lia|].
      destruct (op_within r (DIV b) e (deferred_remainder r b)) as [f1 H1];
        [lia | apply IH; lia |].
      destruct (op_within ZERO (ADD (deferred_remainder r b)) e
                  (deferred_remainder r b)) as [f2 H2]; [lia | |].
      { exists 1%nat. intros f Hf. spend f. rewrite execute_step.
        cbn [value ZERO Z.eqb deferred deferred_remainder app].
        apply new_N_ok. lia. }
      exists (S (S (f1 + f2))). intros f Hf. spend f. rewrite execute_step.
      spend f. rewrite DIV_loop_unfold, Hcond.
      destruct (Z.eqb_spec (value r) 0); [lia|].
      rewrite H1 by lia. cbn [and_then]. apply H2. lia. }
  apply (H (Z.to_nat (10 - d))). lia.
Qed.

(** What [DIV.execute] returns once the loop has left the quotient [q]
    and the remainder [r], both plain. *)
Definition DIV_outcome (q r : Z) (b : N) : N :=
  if r =? 0 then mkN q [] else mkN q [ADD (mkN r [DIV b])].

Lemma DIV_loop_end b q r d :
  0 <= q -> 0 <= r -> r < value b \/ value b <= 0 -> d < 8 ->
  returns (fun f => DIV_loop f b (mkN q []) (mkN r [])) d (DIV_outcome q r b).
Proof.
  intros Hq Hr Hstop Hd.
  assert (Hcond : (value b <=? r) && (0 <? value b) = false).
  { apply andb_false_iff.
    destruct Hstop; [left; apply Z.leb_gt | right; apply Z.ltb_ge]; lia. }
  unfold DIV_outcome. destruct (Z.eqb_spec r 0) as [->|Hr0].
  - exists 1%nat. intros f Hf. spend f. rewrite DIV_loop_unfold. cbn [value].
    rewrite Hcond. reflexivity.
  - destruct (op_within (mkN r []) (DIV b) d (deferred_remainder (mkN r []) b))
      as [f1 H1]; [lia | apply execute_DIV_remainder; cbn; lia |].
    destruct (op_ADD_sum (mkN q []) (deferred_remainder (mkN r []) b) d)
      as [f2 H2]; cbn; try lia.
    exists (S (f1 + f2)). intros f Hf. spend f. rewrite DIV_loop_unfold.
    cbn [value]. rewrite Hcond. destruct (Z.eqb_spec r 0); [lia|].
    rewrite H1 by lia. cbn [and_then]. rewrite H2 by lia.
    cbn [value deferred deferred_remainder app]. do 2 f_equal. lia.
Qed.

Lemma DIV_loop_quotient n : forall b q r d,
  0 < b -> 0 <= q -> 0 <= r -> r / b = Z.of_nat n -> d < 6 ->
  returns (fun f => DIV_loop f (mkN b []) (mkN q []) (mkN r [])) d
          (DIV_outcome (q + r / b) (r mod b) (mkN b [])).
Proof.
  induction n as [|n IH]; intros b q r d Hb Hq Hr Hn Hd.
  - assert (r < b) by (apply Z.div_small_iff in Hn; lia).
    rewrite Z.div_small, Z.mod_small, Z.add_0_r by lia.
    apply DIV_loop_end; cbn; lia.
  - assert (b <= r).
    { destruct (Z_lt_ge_dec r b) as [Hlt|]; [|lia].
      rewrite Z.div_small in Hn by lia. lia. }
    assert (Hdiv : (r - b) / b = r / b - 1).
    { replace (r - b) with (r + (-1) * b) by lia. rewrite Z.div_add by lia. lia. }
    assert (Hmod : (r - b) mod b = r mod b).
    { replace (r - b) with (r + (-1) * b) by lia. apply Z.mod_add. lia. }
    destruct (op_SUB_debt (mkN r []) (mkN b []) d) as [f1 H1]; cbn; try lia.
    cbn [value deferred app] in H1.
    replace (Z.to_nat (b - r)) with 0%nat in H1 by lia.
    replace (Z.max 0 (r - b)) with (r - b) in H1 by lia.
    cbn [List.repeat app] in H1.
    destruct (op_INC q [] d Hq ltac:(lia)) as [f2 H2].
    destruct (IH b (q + 1) (r - b) d Hb ltac:(lia) ltac:(lia) ltac:(lia) Hd)
      as [f3 H3].
    exists (S (f1 + f2 + f3)). intros f Hf. spend f. rewrite DIV_loop_unfold.
    cbn [value]. destruct (Z.leb_spec b r); [|lia].
    destruct (Z.ltb_spec 0 b); [|lia]. cbn [andb].
    rewrite H1 by lia. cbn [and_then]. rewrite H2 by lia. cbn [and_then].
    rewrite H3 by lia. rewrite Hmod. do 2 f_equal. lia.
Qed.

Lemma op_run this o r :
  returns (fun f => op f this o) 0 r -> exists fuel, run (op fuel this o) = Ret r 0.
Proof. intros [f0 H0]. exists f0. apply H0. lia. Qed.

Lemma subtract_repeatedly_small n m b :
  m < b -> subtract_repeatedly n m b = m.
Proof.
  intros Hlt. destruct n as [|n]; [reflexivity|]. cbn [subtract_repeatedly].
  destruct (Z.leb_spec b m); [lia | reflexivity].
Qed.

(** X17.  In the earlier engine [INC] and [DEC] act on the magnitude
    whatever the receiver has deferred: [INC] adds one, [DEC] takes one from
    a magnitude above zero, both leaving the queue as it is; [DEC] at
    magnitude zero appends itself to the queue. *)
Theorem primitives_act_under_deferred_work v ds :
  0 <= v ->
  (exists fuel, run (op fuel (mkN v ds) INC) = Ret (mkN (v + 1) ds) 0) /\
  (0 < v -> exists fuel, run (op fuel (mkN v ds) DEC) = Ret (mkN (v - 1) ds) 0) /\
  (v = 0 ->
   exists fuel, run (op fuel (mkN v ds) DEC) = Ret (mkN 0 (ds ++ [DEC])) 0).
Proof.
  intros Hv. split; [|split].
  - apply op_run, op_INC; lia.
  - intros Hpos. apply op_run, op_DEC_positive; lia.
  - intros ->. apply op_run, op_DEC_at_zero.
Qed.

Lemma primitives_act_under_deferred_work_witness :
  0 <= 0 /\
  (exists fuel,
     run (op fuel (mkN 0 [DEC; DEC]) INC) = Ret (mkN (0 + 1) [DEC; DEC]) 0) /\
  (0 < 0 ->
   exists fuel,
     run (op fuel (mkN 0 [DEC; DEC]) DEC) = Ret (mkN (0 - 1) [DEC; DEC]) 0) /\
  (0 = 0 ->
   exists fuel,
     run (op fuel (mkN 0 [DEC; DEC]) DEC) = Ret (mkN 0 ([DEC; DEC] ++ [DEC])) 0).
Proof.
  split; [lia | apply (primitives_act_under_deferred_work 0 [DEC; DEC]); lia].
Defined.

(** X18.  In the earlier engine [ADD] returns for every receiver and
    operand: the magnitudes add and the deferred queue of the operand is
    appended to that of the receiver. *)
Theorem ADD_adds_and_concatenates a b :
  0 <= value a -> 0 <= value b ->
  exists fuel,
    run (op fuel a (ADD b)) =
    Ret (mkN (value a + value b) (deferred a ++ deferred b)) 0.
Proof. intros Ha Hb. apply op_run, op_ADD_sum; lia. Qed.

Lemma ADD_adds_and_concatenates_witness :
  0 <= value (mkN 1 [DEC]) /\
  0 <= value (mkN 1 [ADD (mkN 2 [DIV (value_from 3)])]) /\
  exists fuel,
    run (op fuel (mkN 1 [DEC]) (ADD (mkN 1 [ADD (mkN 2 [DIV (value_from 3)])]))) =
    Ret (mkN (value (mkN 1 [DEC]) + value (mkN 1 [ADD (mkN 2 [DIV (value_from 3)])]))
             (deferred (mkN 1 [DEC]) ++
              deferred (mkN 1 [ADD (mkN 2 [DIV (value_from 3)])]))) 0.
Proof.
  assert (Ha : 0 <= value (mkN 1 [DEC])) by (cbn; lia).
  assert (Hb : 0 <= value (mkN 1 [ADD (mkN 2 [DIV (value_from 3)])])) by (cbn; lia).
  split; [exact Ha|]. split; [exact Hb|].
  apply (ADD_adds_and_concatenates _ _ Ha Hb).
Defined.

(** X19.  In the earlier engine [SUB] returns for every receiver and
    operand: the magnitude is [max 0 (a - b)], and the queue is that of the
    receiver, then one [DEC] for every unit that found the receiver at zero,
    then the queue of the operand. *)
Theorem SUB_keeps_the_debt a b :
  0 <= value a -> 0 <= value b ->
  exists fuel,
    run (op fuel a (SUB b)) =
    Ret (mkN (Z.max 0 (value a - value b))
             (deferred a ++ List.repeat DEC (Z.to_nat (value b - value a))
              ++ deferred b)) 0.
Proof. intros Ha Hb. apply op_run, op_SUB_debt; lia. Qed.

Lemma SUB_keeps_the_debt_witness :
  0 <= value (mkN 4 [DEC]) /\ 0 <= value (mkN 6 [INC]) /\
  exists fuel,
    run (op fuel (mkN 4 [DEC]) (SUB (mkN 6 [INC]))) =
    Ret (mkN (Z.max 0 (value (mkN 4 [DEC]) - value (mkN 6 [INC])))
             (deferred (mkN 4 [DEC]) ++
              List.repeat DEC (Z.to_nat (value (mkN 6 [INC]) - value (mkN 4 [DEC])))
              ++ deferred (mkN 6 [INC]))) 0.
Proof.
  assert (Ha : 0 <= value (mkN 4 [DEC])) by (cbn; lia).
  assert (Hb : 0 <= value (mkN 6 [INC])) by (cbn; lia).
  split; [exact Ha|]. split; [exact Hb|].
  apply (SUB_keeps_the_debt _ _ Ha Hb).
Defined.

(** X20.  In the earlier engine [MUL] returns for every receiver and
    operand, with the product of the magnitudes: anything times zero, and
    zero times anything, is magnitude zero.  The queue of the receiver
    comes once for every unit of the operand; the queue of the operand is
    dropped. *)
Theorem MUL_is_the_product a b :
  0 <= value a -> 0 <= value b ->
  exists fuel,
    run (op fuel a (MUL b)) =
    Ret (mkN (value a * value b)
             (repeated_queue (deferred a) (Z.to_nat (value b)))) 0.
Proof. intros Ha Hb. apply op_run, op_MUL_product; lia. Qed.

Lemma MUL_is_the_product_witness :
  0 <= value (mkN 4 [DEC]) /\ 0 <= value (mkN 3 [INC]) /\
  exists fuel,
    run (op fuel (mkN 4 [DEC]) (MUL (mkN 3 [INC]))) =
    Ret (mkN (value (mkN 4 [DEC]) * value (mkN 3 [INC]))
             (repeated_queue (deferred (mkN 4 [DEC]))
                             (Z.to_nat (value (mkN 3 [INC]))))) 0.
Proof.
  assert (Ha : 0 <= value (mkN 4 [DEC])) by (cbn; lia).
  assert (Hb : 0 <= value (mkN 3 [INC])) by (cbn; lia).
  split; [exact Ha|]. split; [exact Hb|].
  apply (MUL_is_the_product _ _ Ha Hb).
Defined.

(** X21.  In the earlier engine [DIV] of two values without deferred
    work, the divisor not zero, returns the integer quotient [a / b], plain
    when [b] divides [a] and otherwise with one deferred [ADD] that captures
    the remainder [(a mod b)[DIV(b)]] itself: the division invariant of the
    specification holds of the result. *)
Theorem DIV_meets_the_division_invariant a b :
  0 <= a -> 0 < b ->
  exists fuel result,
    run (op fuel (value_from a) (DIV (value_from b))) = Ret result 0 /\
    result = DIV_outcome (a / b) (a mod b) (value_from b) /\
    division_invariant a b result.
Proof.
  intros Ha Hb.
  destruct (op_run (value_from a) (DIV (value_from b))
              (DIV_outcome (a / b) (a mod b) (value_from b))) as [fuel Hrun].
  { apply op_within; [lia|].
    destruct (DIV_loop_quotient (Z.to_nat (a / b)) b 0 a (0 + 1)) as [f0 H0];
      try lia.
    { pose proof (Z.div_pos a b). lia. }
    exists (S f0). intros f Hf. spend f. rewrite execute_step. apply H0. lia. }
  exists fuel, (DIV_outcome (a / b) (a mod b) (value_from b)).
  split; [exact Hrun|]. split; [reflexivity|].
  pose proof (Z.div_mod a b ltac:(lia)) as Hdm.
  pose proof (Z.mod_pos_bound a b Hb) as Hmod.
  unfold division_invariant, DIV_outcome.
  destruct (Z.eqb_spec (a mod b) 0) as [E|E]; cbn [value deferred].
  - split; [intros _; nia | congruence].
  - split; [congruence | intros _]. split; [nia|].
    exists (mkN (a mod b) [DIV (value_from b)]). split; [reflexivity|].
    unfold oracle_resolve. cbn [value].
    rewrite subtract_repeatedly_small by lia. nia.
Qed.

Lemma DIV_meets_the_division_invariant_witness :
  0 <= 5 /\ 0 < 3 /\
  exists fuel result,
    run (op fuel (value_from 5) (DIV (value_from 3))) = Ret result 0 /\
    result = DIV_outcome (5 / 3) (5 mod 3) (value_from 3) /\
    division_invariant 5 3 result.
Proof.
  split; [lia | split; [lia | apply (DIV_meets_the_division_invariant 5 3); lia]].
Defined.

(** X22.  In the earlier engine a division of a plain value that cannot
    take a single step, the divisor having magnitude zero or exceeding the
    dividend, returns magnitude 0 with one deferred [ADD] that captures the
    dividend with [DIV(b)] deferred on it. *)
Theorem DIV_defers_the_whole_dividend a b :
  0 < a -> a < value b \/ value b = 0 ->
  exists fuel,
    run (op fuel (value_from a) (DIV b)) = Ret (mkN 0 [ADD (mkN a [DIV b])]) 0.
Proof.
  intros Ha Hb. apply op_run, op_within; [lia|].
  destruct (DIV_loop_end b 0 a (0 + 1)) as [f0 H0]; try lia.
  exists (S f0). intros f Hf. spend f. rewrite execute_step.
  rewrite H0 by lia. unfold DIV_outcome.
  destruct (Z.eqb_spec a 0); [lia | reflexivity].
Qed.

Lemma DIV_defers_the_whole_dividend_witness :
  0 < 5 /\ (5 < value ZERO \/ value ZERO = 0) /\
  exists fuel,
    run (op fuel (value_from 5) (DIV ZERO)) =
    Ret (mkN 0 [ADD (mkN 5 [DIV ZERO])]) 0.
Proof.
  split; [lia|]. split; [right; reflexivity|].
  apply (DIV_defers_the_whole_dividend 5 ZERO); [lia | right; reflexivity].
Defined.

(** The outputs that README.md shows, on the earlier engine. *)
Example README_five_by_three :
  exists r,
    run (op 200 (value_from 5) (DIV (value_from 3))) = Ret r 0 /\
    toString r = "1[ADD(2[DIV(3)])]"%string.
Proof. eexists. split; vm_compute; reflexivity. Qed.

Example README_five_by_zero :
  exists r,
    run (op 200 (value_from 5) (DIV ZERO)) = Ret r 0 /\
    toString r = "0[ADD(5[DIV(0)])]"%string.
Proof. eexists. split; vm_compute; reflexivity. Qed.

Example README_three_minus_five :
  exists r,
    run (op 200 (value_from 3) (SUB (value_from 5))) = Ret r 0 /\
    toString r = "0[DEC, DEC]"%string.
Proof. eexists. split; vm_compute; reflexivity. Qed.

End Earlier.
